(** * p2pAtom: slot discovery, challenge-response handshake and presence

    A shallow embedding of [src/atoms/p2pAtom.tsx].

    The file is event driven: promises, timers and PeerJS callbacks.  The
    embedding keeps the control flow of the source and makes the environment
    explicit:

    - the collaborators the file imports (bs58, tweetnacl, web3.js key
      classes) are the fields of the [Externals] class; a call that can raise
      returns [Throw];
    - what the transport does to a [new Peer(id)] is one [BindOutcome] per
      created peer, what it does to a data connection is a timed list of
      [ConnEvent]s;
    - what the code does to the outside (peers created, messages sent,
      connections closed, sessions handed to [connectionAtom]) is a list of
      [Effect]s, in the order of the loop that causes them and, within a
      [connect], connection by connection;
    - the jotai store is part of the state: the atoms the file reads and
      writes, the value of [p2pAtom] itself, and what the store keeps of
      the derived atoms [myDevicePubkeyAtom(pubkey)], which read no other
      atom and are therefore computed once;
    - console output is left out, and the calls on the objects of the
      transport ([new Peer], [peer.connect], [send], [close], [destroy]) are
      taken not to raise.

    The properties follow the model; [Demo] is a stand-in for the
    collaborators on which the model is run on concrete inputs. *)

From Stdlib Require Import String Ascii List Bool Arith NArith Lia DecimalString.
From Stdlib Require DecimalNat.
From stdpp Require Import base option gmap strings.
Import ListNotations.

(** ** Exceptions *)

(** A JavaScript expression either yields a value or raises. *)
Inductive Result (A : Type) : Type :=
| Ok (a : A)
| Throw.
Arguments Ok {A} a.
Arguments Throw {A}.

(** Sequencing stops at the first raise; [x ← e; k] is stdpp's notation. *)
#[global] Instance Result_bind : MBind Result := fun A B k r =>
  match r with
  | Ok a => k a
  | Throw => Throw
  end.

(** ** Collaborators *)

Abbreviation Bytes := (list Byte.byte).

(** The imported libraries, by the calls the file makes.  A keypair is
    represented by its [secretKey] bytes. *)
Class Externals := {
  (** [bs58.encode] *)
  bs58_encode : Bytes -> string;
  (** [bs58.decode]: raises on a string that is not base58 *)
  bs58_decode : string -> Result Bytes;
  (** [Keypair.fromSecretKey(bytes).secretKey]: raises on a bad secret key *)
  Keypair_fromSecretKey : Bytes -> Result Bytes;
  (** [keypair.publicKey.toBase58()] *)
  Keypair_publicKey_toBase58 : Bytes -> string;
  (** [new PublicKey(s).toBytes()]: raises on an invalid key string *)
  PublicKey_toBytes : string -> Result Bytes;
  (** [nacl.sign.detached(message, secretKey)] *)
  nacl_sign_detached : Bytes -> Bytes -> Result Bytes;
  (** [nacl.sign.detached.verify(message, signature, publicKey)]: raises on
      a signature or key of the wrong size *)
  nacl_sign_detached_verify : Bytes -> Bytes -> Bytes -> Result bool
}.

(** [new TextEncoder().encode(s)]; strings are byte strings here.  A missing
    argument encodes as the empty string. *)
Definition TextEncoder_encode (s : option string) : Bytes :=
  match s with
  | Some s => list_byte_of_string s
  | None => []
  end.

(** JavaScript truthiness of a [string | null | undefined]. *)
Definition truthy (s : option string) : bool :=
  match s with
  | Some s => negb (String.eqb s "")
  | None => false
  end.

(** ** Messages *)

Inductive MessageType := challenge | verification.

(** [ConnectionMessage] *)
Record ConnectionMessage := {
  msg_type : MessageType;
  message : string
}.

(** What a ['data'] event carries.  The source casts it to
    [ConnectionMessage] without looking: [JNullish] is [null] or
    [undefined], on which reading [.type] raises; any other value is seen
    through its two fields, [None] standing for a [type] that is not a
    string, and for a [message] that is absent.  A [message] that is
    present is a string, as the wire format has it. *)
Inductive JsData :=
| JNullish
| JObject (type : option string) (message : option string).

(** ** validateConnection *)

(** What the ['data'] handler does to its connection and its caller. *)
Inductive Action :=
| Send (m : ConnectionMessage)   (* connection.send(m)  *)
| OnVerify (result : bool)       (* onVerify(result)    *)
| Close.                         (* connection.close()  *)

Definition storeId (pubkey : string) : string := "device_key_" +:+ pubkey.

Section Handshake.
Context `{ext : Externals}.

(** The [case 'challenge'] block. *)
Definition on_challenge (localStorage : gmap string string) (myPubkey : string)
    (payload_message : option string) : Result (list Action) :=
  let deviceKey := localStorage !! storeId myPubkey in
  if negb (truthy deviceKey) then Ok []
  else
    decoded ← bs58_decode (default "" deviceKey);
    secretKey ← Keypair_fromSecretKey decoded;
    let message := TextEncoder_encode payload_message in
    sig ← nacl_sign_detached message secretKey;
    Ok [Send {| msg_type := verification; message := bs58_encode sig |}].

(** The [case 'verification'] block. *)
Definition on_verification (nonce : string) (targetDevicePubkey : option string)
    (payload_message : option string) : Result (list Action) :=
  if negb (truthy payload_message) then Ok []
  else
    let message := TextEncoder_encode (Some nonce) in
    signature ← bs58_decode (default "" payload_message);
    pubkey ← match targetDevicePubkey with
             | Some k => PublicKey_toBytes k
             | None => Throw
             end;
    result ← nacl_sign_detached_verify message signature pubkey;
    Ok [OnVerify result].

(** The body of the [try]. *)
Definition try_data (localStorage : gmap string string) (nonce myPubkey : string)
    (targetDevicePubkey : option string) (data : JsData) : Result (list Action) :=
  match data with
  | JNullish => Throw
  | JObject (Some t) m =>
      if String.eqb t "challenge" then on_challenge localStorage myPubkey m
      else if String.eqb t "verification" then on_verification nonce targetDevicePubkey m
      else Ok []
  | JObject None _ => Ok []
  end.

(** [connection.on('data', ...)]: the [catch] closes the connection. *)
Definition on_data (localStorage : gmap string string) (nonce myPubkey : string)
    (targetDevicePubkey : option string) (data : JsData) : list Action :=
  match try_data localStorage nonce myPubkey targetDevicePubkey data with
  | Ok actions => actions
  | Throw => [Close]
  end.

(** [connection.on('open', ...)] *)
Definition on_open (nonce : string) : list Action :=
  [Send {| msg_type := challenge; message := nonce |}].

End Handshake.

(** ** Transport objects *)

(** A PeerJS [DataConnection], known by [connection.peer], the identifier of
    the remote side. *)
Record DataConnection := { conn_peer : string }.

(** What the transport raises on a data connection. *)
Inductive ConnEvent :=
| ConnOpen
| ConnData (data : JsData)
| ConnError.

Inductive PeerEvent := EvError | EvOpen | EvConnection.

#[global] Instance PeerEvent_eq_dec : EqDecision PeerEvent.
Proof. solve_decision. Defined.

(** The callbacks the file installs on a [Peer], by the place they are
    written at. *)
Inductive Listener :=
| ProbeError                      (* lines 124-132: settles the slot probe *)
| ProbeOpen                       (* lines 134-137: settles the slot probe *)
| DestroyOnError                  (* lines 147-150 *)
| ValidateInbound (key : string). (* lines 152-167 *)

Record Peer := {
  peer_id : string;
  destroyed : bool;
  listeners : list (PeerEvent * Listener)
}.

(** [peer.on(ev, l)] and [peer.off(ev)] (which drops every listener of [ev]). *)
Definition peer_on (ev : PeerEvent) (l : Listener) (p : Peer) : Peer :=
  {| peer_id := peer_id p; destroyed := destroyed p;
     listeners := listeners p ++ [(ev, l)] |}.

Definition peer_off (ev : PeerEvent) (p : Peer) : Peer :=
  {| peer_id := peer_id p; destroyed := destroyed p;
     listeners := List.filter (fun el => negb (bool_decide (fst el = ev))) (listeners p) |}.

(** What the transport answers to one [new Peer(id)]. *)
Inductive BindOutcome :=
| BindOpen            (* 'open' *)
| BindUnavailableId   (* 'error' of type 'unavailable-id' *)
| BindOtherError.     (* any other 'error' *)

(** What the code does to the outside. *)
Inductive Effect :=
| NewPeer (id : string)
| Backoff (ms : N)                              (* a [setTimeout] that was waited for *)
| PeerOff (id : string) (ev : PeerEvent)
| PeerOn (id : string) (ev : PeerEvent) (l : Listener)
| PeerDestroy (id : string)
| PeerConnect (hostId : string)
| ConnSend (c : DataConnection) (m : ConnectionMessage)
| ConnClose (c : DataConnection)
| Settled (ms : N)                              (* an attempt's promise settled *)
| AddConnection (c : DataConnection).           (* set(connectionAtom, {type: 'add', connection}) *)

(** ** Atoms *)

(** [P2pAtomAction] *)
Inductive P2pAtomAction :=
| init (key : string)
| destroy
| connect (key : string)
| add_connection (conn : DataConnection).

(** The store and [window.localStorage].  [p2pAtom] is [atom(null, write)]:
    it has a value of its own, null at first.  [myDevicePubkeyAtom(pubkey)]
    is an atom whose read function reads no other atom: the store runs it at
    the first [get] and answers every later [get] with what that run gave,
    its value or its raise. *)
Record State := {
  myPeerAtom : option Peer;
  isNetworkOnlineAtom : bool;
  userWalletAtom : option string;           (* get(userWalletAtom).publicKey, in base58 *)
  localStorage : gmap string string;        (* window.localStorage *)
  p2pAtomValue : option P2pAtomAction;      (* the value of p2pAtom *)
  deviceKeyCache : gmap string (Result string)
                                            (* myDevicePubkeyAtom(pubkey), once read *)
}.

Definition set_myPeerAtom (v : option Peer) (st : State) : State :=
  {| myPeerAtom := v; isNetworkOnlineAtom := isNetworkOnlineAtom st;
     userWalletAtom := userWalletAtom st; localStorage := localStorage st;
     p2pAtomValue := p2pAtomValue st; deviceKeyCache := deviceKeyCache st |}.

Definition set_localStorage (v : gmap string string) (st : State) : State :=
  {| myPeerAtom := myPeerAtom st; isNetworkOnlineAtom := isNetworkOnlineAtom st;
     userWalletAtom := userWalletAtom st; localStorage := v;
     p2pAtomValue := p2pAtomValue st; deviceKeyCache := deviceKeyCache st |}.

Definition set_p2pAtomValue (v : option P2pAtomAction) (st : State) : State :=
  {| myPeerAtom := myPeerAtom st; isNetworkOnlineAtom := isNetworkOnlineAtom st;
     userWalletAtom := userWalletAtom st; localStorage := localStorage st;
     p2pAtomValue := v; deviceKeyCache := deviceKeyCache st |}.

Definition set_deviceKeyCache (v : gmap string (Result string)) (st : State) : State :=
  {| myPeerAtom := myPeerAtom st; isNetworkOnlineAtom := isNetworkOnlineAtom st;
     userWalletAtom := userWalletAtom st; localStorage := localStorage st;
     p2pAtomValue := p2pAtomValue st; deviceKeyCache := v |}.

Inductive OnlineState := offline | online | loading.

Definition myOnlineStateAtom (st : State) : OnlineState :=
  if negb (isNetworkOnlineAtom st) then offline
  else match myPeerAtom st with
       | Some _ => online
       | None => loading
       end.

(** [`pygmy_${devicePubkey}_${slot}`] *)
Definition pygmy_id (devicePubkey : string) (slot : nat) : string :=
  "pygmy_" +:+ devicePubkey +:+ "_" +:+ NilZero.string_of_uint (Nat.to_uint slot).

(** [s.split(sep)] for a one character separator. *)
Fixpoint js_split (sep : ascii) (s : string) : list string :=
  match s with
  | EmptyString => [EmptyString]
  | String c s' =>
      if Ascii.eqb c sep then EmptyString :: js_split sep s'
      else match js_split sep s' with
           | [] => [String c EmptyString]
           | h :: t => String c h :: t
           end
  end.

(** What an action ends in. *)
Inductive Outcome :=
| Returned (st : State) (effects : list Effect)   (* the promise resolves *)
| Thrown (st : State)                             (* the promise rejects *)
| Pending (st : State) (effects : list Effect).   (* still waiting for the transport *)

(** What the environment holds for one run of an action. *)
Record Env := {
  generated : Bytes;                       (* the key [Keypair.generate()] would give *)
  binds : list BindOutcome;                (* the answer to each [new Peer], in order *)
  getRandom : nat -> string;               (* the nonce drawn for the attempt on a slot *)
  events : nat -> list (N * ConnEvent)     (* per slot: delay since the last event, event *)
}.

Section Coordinator.
Context `{ext : Externals}.

(** ** myDevicePubkeyAtom *)

(** The read function of [myDevicePubkeyAtom(pubkey)]: reads the device key
    of [pubkey], creating and storing one when there is none.  Yields the
    device public key and the storage afterwards. *)
Definition myDevicePubkeyAtom (storage : gmap string string) (pubkey : string)
    (fresh : Bytes) : Result (string * gmap string string) :=
  let existingDeviceKey := storage !! storeId pubkey in
  if truthy existingDeviceKey then
    decoded ← bs58_decode (default "" existingDeviceKey);
    secretKey ← Keypair_fromSecretKey decoded;
    Ok (Keypair_publicKey_toBase58 secretKey, storage)
  else
    Ok (Keypair_publicKey_toBase58 fresh,
        <[storeId pubkey := bs58_encode fresh]> storage).

(** [get(myDevicePubkeyAtom(pubkey))]: the read function runs when the store
    holds nothing for [pubkey], and what it gives is kept; a raise leaves
    the storage as it was, the only write being the last statement of the
    branch that cannot raise.  [fresh] is the key [Keypair.generate()] would
    give, which is called in that branch only. *)
Definition get_myDevicePubkeyAtom (st : State) (pubkey : string) (fresh : Bytes)
    : Result string * State :=
  match deviceKeyCache st !! pubkey with
  | Some kept => (kept, st)
  | None =>
      match myDevicePubkeyAtom (localStorage st) pubkey fresh with
      | Ok (devicePubkey, storage) =>
          (Ok devicePubkey,
           set_deviceKeyCache (<[pubkey := Ok devicePubkey]> (deviceKeyCache st))
             (set_localStorage storage st))
      | Throw =>
          (Throw, set_deviceKeyCache (<[pubkey := Throw]> (deviceKeyCache st)) st)
      end
  end.

(** ** The [init] case *)

(** One turn of the slot loop that got an answer. *)
Record Probe := {
  probe_slot : nat;
  probe_outcome : BindOutcome;
  probe_delay : N      (* time between the answer and the promise settling *)
}.

Inductive ProbeStatus :=
| Bound (peer : Peer)      (* the loop ended with a peer *)
| Exhausted                (* the loop ended with [slot = 10] and no peer *)
| Awaiting (slot : nat).   (* [new Peer] on [slot] has no answer yet *)

(** A peer as the probe creates it. *)
Definition newPeer (id : string) : Peer :=
  {| peer_id := id; destroyed := false;
     listeners := [(EvError, ProbeError); (EvOpen, ProbeOpen)] |}.

(** [while (!peer && slot < 10)], lines 118-139, against the answers the
    transport gives; [peer] is null at every entry. *)
Fixpoint init_loop (devicePubkey : string) (answers : list BindOutcome) (slot : nat)
    : list Probe * ProbeStatus :=
  if negb (slot <? 10) then ([], Exhausted)
  else
    match answers with
    | [] => ([], Awaiting slot)
    | BindOpen :: _ =>
        ([{| probe_slot := slot; probe_outcome := BindOpen; probe_delay := 0 |}],
         Bound (newPeer (pygmy_id devicePubkey slot)))
    | BindUnavailableId :: answers' =>
        let '(probes, status) := init_loop devicePubkey answers' (S slot) in
        ({| probe_slot := slot; probe_outcome := BindUnavailableId; probe_delay := 0 |}
           :: probes, status)
    | BindOtherError :: answers' =>
        let '(probes, status) := init_loop devicePubkey answers' slot in
        ({| probe_slot := slot; probe_outcome := BindOtherError; probe_delay := 5000 |}
           :: probes, status)
    end.

(** The probes as effects. *)
Definition probe_effects (devicePubkey : string) (p : Probe) : list Effect :=
  NewPeer (pygmy_id devicePubkey (probe_slot p))
    :: (if (0 <? probe_delay p)%N then [Backoff (probe_delay p)] else []).

(** Lines 144-167: the probe's listeners go, the lasting ones come. *)
Definition install (key : string) (peer : Peer) : Peer :=
  peer_on EvConnection (ValidateInbound key)
    (peer_on EvError DestroyOnError (peer_off EvOpen (peer_off EvError peer))).

Definition install_effects (key : string) (peer : Peer) : list Effect :=
  [PeerOff (peer_id peer) EvError; PeerOff (peer_id peer) EvOpen;
   PeerOn (peer_id peer) EvError DestroyOnError;
   PeerOn (peer_id peer) EvConnection (ValidateInbound key)].

Definition init_case (env : Env) (st : State) (key : string) : Outcome :=
  match get_myDevicePubkeyAtom st key (generated env) with
  | (Throw, st) => Thrown st
  | (Ok devicePubkey, st) =>
      let '(probes, status) := init_loop devicePubkey (binds env) 0 in
      let probed := flat_map (probe_effects devicePubkey) probes in
      match status with
      | Awaiting slot => Pending st (probed ++ [NewPeer (pygmy_id devicePubkey slot)])
      | Exhausted => Returned st probed
      | Bound peer =>
          Returned (set_myPeerAtom (Some (install key peer)) st)
                   (probed ++ install_effects key peer)
      end
  end.

(** ** The [destroy] case *)

Definition destroy_case (st : State) : State * list Effect :=
  match myPeerAtom st with
  | Some peer =>
      (set_myPeerAtom None st,
       if destroyed peer then [] else [PeerDestroy (peer_id peer)])
  | None => (st, [])
  end.

(** ** The [connect] case *)

(** What one connection attempt left behind.  [attempt_effects] is what was
    done to its connection: while it was awaited, then the mark of its
    promise settling, then what the handlers did on the events raised
    afterwards, at whatever time these came. *)
Record Attempt := {
  attempt_slot : nat;
  attempt_effects : list Effect;
  attempt_settled : N;                 (* when its promise settled *)
  attempt_conn : option DataConnection (* what it settled to *)
}.

(** The handler's actions under the [onVerify] of lines 206-213.  The flag
    says whether [resolve(connection)] was called. *)
Fixpoint connect_actions (c : DataConnection) (actions : list Action)
    : list Effect * bool :=
  match actions with
  | [] => ([], false)
  | a :: rest =>
      let '(effects, resolved) := connect_actions c rest in
      match a with
      | Send m => (ConnSend c m :: effects, resolved)
      | Close => (ConnClose c :: effects, resolved)
      | OnVerify true => (effects, true)
      | OnVerify false => (ConnClose c :: effects, resolved)
      end
  end.

(** The promise of lines 185-215 from [elapsed] ms after its creation, up to
    its settling: the timer settles it to null at 5000 ms unless an event
    did before.  (The nonce drawn at line 192 is only logged; the handshake
    draws its own at line 64.) *)
Fixpoint await_attempt (storage : gmap string string) (nonce myPubkey key : string)
    (c : DataConnection) (elapsed : N) (evs : list (N * ConnEvent))
    : list Effect * option DataConnection * N :=
  match evs with
  | [] => ([], None, 5000%N)
  | (delay, ev) :: evs' =>
      let now := (elapsed + delay)%N in
      if (5000 <=? now)%N then ([], None, 5000%N)
      else
        match ev with
        | ConnError => ([], None, now)
        | ConnOpen =>
            let '(effects, conn, settled) :=
              await_attempt storage nonce myPubkey key c now evs' in
            (fst (connect_actions c (on_open nonce)) ++ effects, conn, settled)
        | ConnData data =>
            let '(done, resolved) :=
              connect_actions c (on_data storage nonce myPubkey (Some key) data) in
            if resolved then (done, Some c, now)
            else
              let '(effects, conn, settled) :=
                await_attempt storage nonce myPubkey key c now evs' in
              (done ++ effects, conn, settled)
        end
  end.

(** The events that are raised when the promise has settled already. *)
Fixpoint after_settled (storage : gmap string string) (nonce myPubkey key : string)
    (c : DataConnection) (elapsed : N) (evs : list (N * ConnEvent))
    : list (N * ConnEvent) :=
  match evs with
  | [] => []
  | (delay, ev) :: evs' =>
      let now := (elapsed + delay)%N in
      if (5000 <=? now)%N then evs
      else
        match ev with
        | ConnError => evs'
        | ConnOpen => after_settled storage nonce myPubkey key c now evs'
        | ConnData data =>
            if snd (connect_actions c (on_data storage nonce myPubkey (Some key) data))
            then evs'
            else after_settled storage nonce myPubkey key c now evs'
        end
  end.

(** Nothing takes the handlers off a connection and nothing closes one that
    timed out or failed: an event raised when the promise has settled still
    runs them.  [resolve] and [clearTimeout] do nothing then; the sends and
    the closes are done. *)
Fixpoint late_events (storage : gmap string string) (nonce myPubkey key : string)
    (c : DataConnection) (evs : list (N * ConnEvent)) : list Effect :=
  match evs with
  | [] => []
  | (_, ev) :: evs' =>
      match ev with
      | ConnError => []
      | ConnOpen => fst (connect_actions c (on_open nonce))
      | ConnData data =>
          fst (connect_actions c (on_data storage nonce myPubkey (Some key) data))
      end ++ late_events storage nonce myPubkey key c evs'
  end.

Definition attempt (env : Env) (storage : gmap string string) (myPubkey key : string)
    (slot : nat) : Attempt :=
  let hostId := pygmy_id key slot in
  let connection := {| conn_peer := hostId |} in
  let nonce := getRandom env slot in
  let '(effects, conn, settled) :=
    await_attempt storage nonce myPubkey key connection 0 (events env slot) in
  let late :=
    late_events storage nonce myPubkey key connection
      (after_settled storage nonce myPubkey key connection 0 (events env slot)) in
  {| attempt_slot := slot;
     attempt_effects := PeerConnect hostId :: effects ++ [Settled settled] ++ late;
     attempt_settled := settled;
     attempt_conn := conn |}.

(** [while (!conn && slot < 10)], lines 184-218; [conn] is null at every
    entry.  [None] when [fuel] turns do not end the loop. *)
Fixpoint connect_loop (fuel : nat) (env : Env) (storage : gmap string string)
    (myPubkey key : string) (slot : nat) : option (list Attempt * option DataConnection) :=
  if negb (slot <? 10) then Some ([], None)
  else
    match fuel with
    | O => None
    | S fuel' =>
        let a := attempt env storage myPubkey key slot in
        match attempt_conn a with
        | Some conn => Some ([a], Some conn)
        | None =>
            match connect_loop fuel' env storage myPubkey key (S slot) with
            | Some (attempts, conn) => Some (a :: attempts, conn)
            | None => None
            end
        end
    end.

Definition connect_case (env : Env) (st : State) (key : string) : Outcome :=
  match myPeerAtom st with
  | None => Returned st []
  | Some peer =>
      match userWalletAtom st with
      | None => Returned st []
      | Some myPubkey =>
          match connect_loop 10 env (localStorage st) myPubkey key 0 with
          | None => Pending st []
          | Some (attempts, conn) =>
              let tried := flat_map attempt_effects attempts in
              match conn with
              | None => Returned st tried
              | Some conn => Returned st (tried ++ [AddConnection conn])
              end
          end
      end
  end.

(** ** p2pAtom *)

(** The write function of [p2pAtom]; [add_connection] has no case. *)
Definition p2pAtom (env : Env) (st : State) (action : P2pAtomAction) : Outcome :=
  match action with
  | init key => init_case env st key
  | connect key => connect_case env st key
  | destroy => let '(st', effects) := destroy_case st in Returned st' effects
  | add_connection _ => Returned st []
  end.

(** ** Events on the listening peer *)

(** The [onVerify] of lines 159-165 and the rest of the handler's actions. *)
Definition inbound_action (c : DataConnection) (a : Action) : list Effect :=
  match a with
  | Send m => [ConnSend c m]
  | Close => [ConnClose c]
  | OnVerify true => [AddConnection c]
  | OnVerify false => [ConnClose c]
  end.

(** [connection.peer.split('_')[1]] *)
Definition claimed_key (c : DataConnection) : option string :=
  js_split "_" (conn_peer c) !! 1%nat.

(** One event on a connection that [ValidateInbound key] took up. *)
Definition inbound_event (storage : gmap string string) (nonce key : string)
    (c : DataConnection) (ev : ConnEvent) : list Effect :=
  match ev with
  | ConnOpen => flat_map (inbound_action c) (on_open nonce)
  | ConnData data =>
      flat_map (inbound_action c) (on_data storage nonce key (claimed_key c) data)
  | ConnError => []
  end.

(** A ['connection'] event on the stored peer, and the events that follow on
    that connection. *)
Definition on_connection (st : State) (nonce : string) (c : DataConnection)
    (evs : list ConnEvent) : list Effect :=
  match myPeerAtom st with
  | None => []
  | Some peer =>
      flat_map (fun el =>
        match el with
        | (EvConnection, ValidateInbound key) =>
            flat_map (inbound_event (localStorage st) nonce key c) evs
        | _ => []
        end) (listeners peer)
  end.

(** One listener of an ['error'] event.  The listener of lines 147-150 calls
    [set(p2pAtom, {type: 'destroy'})] with the [set] of [p2pAtom]'s own write
    function: the store takes a [set] of the atom that is being written as
    the assignment of its value and does not run the write function. *)
Definition on_error_listener (l : Listener) (st : State) : State * list Effect :=
  match l with
  | DestroyOnError => (set_p2pAtomValue (Some destroy) st, [])
  | _ => (st, [])
  end.

(** The peer after the transport destroyed it, when it did ([fatal]). *)
Definition transport_destroys (fatal : bool) (peer : Peer) : Peer :=
  {| peer_id := peer_id peer; destroyed := destroyed peer || fatal;
     listeners := listeners peer |}.

(** An ['error'] event on the stored peer; [fatal] says the transport
    destroyed the peer before raising it. *)
Definition on_error (fatal : bool) (st : State) : State * list Effect :=
  match myPeerAtom st with
  | None => (st, [])
  | Some peer =>
      let peer' := transport_destroys fatal peer in
      fold_left (fun acc el =>
          match el with
          | (EvError, l) =>
              let '(st', effects) := on_error_listener l (fst acc) in
              (st', snd acc ++ effects)
          | _ => acc
          end)
        (listeners peer) (set_myPeerAtom (Some peer') st, [])
  end.

End Coordinator.

(** ** A stand-in for the collaborators

    Enough to run the model on concrete inputs: the base58 coding is the
    identity on strings over the base58 alphabet, a public key is its secret
    key reversed, and a signature is the secret key followed by the message.
    It has the interface of the real libraries and none of their security. *)
Module Demo.

Definition base58_char (c : ascii) : bool :=
  let n := N_of_ascii c in
  ((49 <=? n) && (n <=? 57)                                         (* 1-9 *)
   || (65 <=? n) && (n <=? 90) && negb (n =? 73) && negb (n =? 79)  (* A-Z but I, O *)
   || (97 <=? n) && (n <=? 122) && negb (n =? 108))%N.              (* a-z but l *)

Definition decode (s : string) : Result Bytes :=
  if forallb base58_char (list_ascii_of_string s)
  then Ok (list_byte_of_string s) else Throw.

Definition bytes_eqb (a b : Bytes) : bool :=
  String.eqb (string_of_list_byte a) (string_of_list_byte b).

Definition externals : Externals := {|
  bs58_encode := string_of_list_byte;
  bs58_decode := decode;
  Keypair_fromSecretKey := fun b => match b with [] => Throw | _ => Ok b end;
  Keypair_publicKey_toBase58 := fun sk => string_of_list_byte (rev sk);
  PublicKey_toBytes := fun s => match s with EmptyString => Throw | _ => decode s end;
  nacl_sign_detached := fun m sk => Ok (sk ++ m);
  nacl_sign_detached_verify := fun m sig pk =>
    match pk with [] => Throw | _ => Ok (bytes_eqb sig (rev pk ++ m)) end
|}.

#[local] Existing Instance externals.

(** The wallet [alice] with the device key [sk1] stored, not listening. *)
Definition alice_offline : State :=
  {| myPeerAtom := None; isNetworkOnlineAtom := true;
     userWalletAtom := Some "alice";
     localStorage := {[ storeId "alice" := "sk1" ]};
     p2pAtomValue := None; deviceKeyCache := ∅ |}.

(** The same wallet with nothing stored. *)
Definition alice_fresh : State :=
  {| myPeerAtom := None; isNetworkOnlineAtom := true;
     userWalletAtom := Some "alice"; localStorage := ∅;
     p2pAtomValue := None; deviceKeyCache := ∅ |}.

(** [alice_offline] once the store has read her device key. *)
Definition alice_keyed : State :=
  snd (get_myDevicePubkeyAtom alice_offline "alice" (list_byte_of_string "sk9")).

(** A transport that answers as scripted and a silent network. *)
Definition env_of (answers : list BindOutcome) (evs : nat -> list (N * ConnEvent)) : Env :=
  {| generated := list_byte_of_string "sk9"; binds := answers;
     getRandom := fun slot => "n" +:+ NilZero.string_of_uint (Nat.to_uint slot);
     events := evs |}.

Definition silent : nat -> list (N * ConnEvent) := fun _ => [].

(** [alice] listening on slot 2, after slots 0 and 1 were taken. *)
Definition alice_online : State :=
  match init_case (env_of [BindUnavailableId; BindUnavailableId; BindOpen] silent)
                  alice_offline "alice" with
  | Returned st _ => st
  | _ => alice_offline
  end.

(** The device [dk2] (public key [2kd]) answers on slot 1 only. *)
Definition bob_on_slot_1 (slot : nat) : list (N * ConnEvent) :=
  match slot with
  | 1 => [(120, ConnOpen);
          (40, ConnData (JObject (Some "challenge") (Some "q7")));
          (35, ConnData (JObject (Some "verification") (Some "dk2n1")))]%N
  | _ => [(800, ConnError)]%N
  end.

(** Nobody listens: the connection to an even slot stays silent, the
    connection to an odd slot fails after 800 ms. *)
Definition nobody (slot : nat) : list (N * ConnEvent) :=
  if Nat.even slot then [] else [(800, ConnError)]%N.

(** The connection [alice] gets from the device [dk2]. *)
Definition from_bob : DataConnection := {| conn_peer := "pygmy_2kd_0" |}.

(** The wallet [bob] with the device key [dk2] stored, listening on slot 1
    (identifier [pygmy_2kd_1]). *)
Definition bob_online : State :=
  match init_case (env_of [BindUnavailableId; BindOpen] silent)
                  {| myPeerAtom := None; isNetworkOnlineAtom := true;
                     userWalletAtom := Some "bob";
                     localStorage := {[ storeId "bob" := "dk2" ]};
                     p2pAtomValue := None; deviceKeyCache := ∅ |} "bob" with
  | Returned st _ => st
  | _ => alice_offline
  end.

(** The wallet [alice] with a stored device key that is not base58. *)
Definition alice_corrupt : State :=
  {| myPeerAtom := None; isNetworkOnlineAtom := true;
     userWalletAtom := Some "alice";
     localStorage := {[ storeId "alice" := "0O0" ]};
     p2pAtomValue := None; deviceKeyCache := ∅ |}.


(** What [dk2] sends when it follows the protocol against the nonce [n1]. *)
Definition bob_follows : list ConnEvent :=
  [ConnOpen;
   ConnData (JObject (Some "challenge") (Some "q7"));
   ConnData (JObject (Some "verification") (Some "dk2n1"))].

End Demo.

(** * The vocabulary of the properties *)

Section HandlerCases.
Context `{ext : Externals}.

Implicit Types (storage : gmap string string) (nonce myPubkey : string).
Implicit Types (target : option string) (data : JsData).

(** The four things the handler can do with a ['data'] event. *)
Inductive Handled storage nonce myPubkey target data : list Action -> Prop :=
| HIgnored :
    Handled storage nonce myPubkey target data []
| HRaised :
    try_data storage nonce myPubkey target data = Throw ->
    Handled storage nonce myPubkey target data [Close]
| HReplied m sig :
    data = JObject (Some "challenge"%string) m ->
    Handled storage nonce myPubkey target data
      [Send {| msg_type := verification; message := sig |}]
| HJudged m signature k pubkey result :
    data = JObject (Some "verification"%string) m ->
    bs58_decode (default ""%string m) = Ok signature ->
    target = Some k -> PublicKey_toBytes k = Ok pubkey ->
    nacl_sign_detached_verify (TextEncoder_encode (Some nonce)) signature pubkey = Ok result ->
    Handled storage nonce myPubkey target data [OnVerify result].

(** What one exchange needs of the libraries: the stored key decodes to a
    secret key that is accepted and signs the nonce, the signature survives
    the base58 coding, the claimed device key parses, and the signature
    verifies under it. *)
Record ExchangeOk (stored devicePubkey nonce : string) (secretKey pubkey sig : Bytes)
    : Prop := {
  stored_decodes : bs58_decode stored = Ok secretKey;
  secret_accepted : Keypair_fromSecretKey secretKey = Ok secretKey;
  nonce_signed : nacl_sign_detached (TextEncoder_encode (Some nonce)) secretKey = Ok sig;
  signature_coded : bs58_decode (bs58_encode sig) = Ok sig;
  signature_not_empty : truthy (Some (bs58_encode sig)) = true;
  pubkey_parses : PublicKey_toBytes devicePubkey = Ok pubkey;
  signature_verifies :
    nacl_sign_detached_verify (TextEncoder_encode (Some nonce)) sig pubkey = Ok true
}.

End HandlerCases.

(** The [type] tag a payload carries, when it carries one. *)
Definition tag_of (data : JsData) : option string :=
  match data with
  | JNullish => None
  | JObject tag _ => tag
  end.

(** ** Runs of the slot loop *)

Definition is_unavailable (o : BindOutcome) : bool :=
  match o with
  | BindUnavailableId => true
  | _ => false
  end.

(** The slots the transport reported as taken, in the order they were tried. *)
Definition taken_slots (probes : list Probe) : list nat :=
  map probe_slot (List.filter (fun p => is_unavailable (probe_outcome p)) probes).

(** The shape of a run of the loop that enters at [slot]: a probe on the
    slot of the entry, and then the run from the next slot when the slot was
    taken, from the same slot after 5000 ms on another error, and nothing
    after a bind. *)
Inductive Run : nat -> list Probe -> Prop :=
| run_stop slot :
    Run slot []
| run_open slot :
    slot < 10 ->
    Run slot [{| probe_slot := slot; probe_outcome := BindOpen; probe_delay := 0 |}]
| run_taken slot probes :
    slot < 10 -> Run (S slot) probes ->
    Run slot ({| probe_slot := slot; probe_outcome := BindUnavailableId;
                 probe_delay := 0 |} :: probes)
| run_retry slot probes :
    slot < 10 -> Run slot probes ->
    Run slot ({| probe_slot := slot; probe_outcome := BindOtherError;
                 probe_delay := 5000 |} :: probes).

(** How the loop goes on with [slot] after the probe of rank [i]: the next
    answer of the transport, when there is one, is the outcome of a probe of
    [slot]; when there is none, the loop is waiting for the answer to the
    [new Peer] it made on [slot]. *)
Definition goes_on (answers : list BindOutcome) (run : list Probe * ProbeStatus)
    (i slot : nat) : Prop :=
  match answers !! S i with
  | Some o =>
      exists q, fst run !! S i = Some q /\ probe_slot q = slot /\ probe_outcome q = o
  | None => fst run !! S i = None /\ snd run = Awaiting slot
  end.

(** ** Effects *)

(** The effects of an outcome, whatever it is. *)
Definition effects_of (o : Outcome) : list Effect :=
  match o with
  | Returned _ effects | Pending _ effects => effects
  | Thrown _ => []
  end.

(** The state an outcome leaves. *)
Definition state_of (o : Outcome) : State :=
  match o with
  | Returned st _ | Pending st _ | Thrown st => st
  end.

(** What can happen to a store and its storage between two looks at them:
    an action of [p2pAtom], an ['error'] event on the stored peer, or
    anything that is done to [localStorage] from outside. *)
Inductive Step :=
| Act (env : Env) (action : P2pAtomAction)
| ErrorEvent (fatal : bool)
| Storage (storage : gmap string string).

Section Steps.
Context `{ext : Externals}.

Definition step (st : State) (s : Step) : State :=
  match s with
  | Act env action => state_of (p2pAtom env st action)
  | ErrorEvent fatal => fst (on_error fatal st)
  | Storage storage => set_localStorage storage st
  end.

End Steps.

(** The identifiers [peer.connect] was called with, in order. *)
Definition connects (effects : list Effect) : list string :=
  flat_map (fun e => match e with PeerConnect hostId => [hostId] | _ => [] end) effects.

(** An effect on the connection [c] itself. *)
Definition on_conn (c : DataConnection) (e : Effect) : Prop :=
  (exists m, e = ConnSend c m) \/ e = ConnClose c.

(** The connections handed to the application, in order. *)
Definition handed (effects : list Effect) : list DataConnection :=
  flat_map (fun e => match e with AddConnection c => [c] | _ => [] end) effects.

(** The time spent waiting for the promises of the attempts. *)
Definition total_settled (effects : list Effect) : N :=
  fold_right (fun e acc => match e with Settled ms => (ms + acc)%N | _ => acc end)
             0%N effects.

(** The time spent in backoff. *)
Definition total_backoff (effects : list Effect) : N :=
  fold_right (fun e acc => match e with Backoff ms => (ms + acc)%N | _ => acc end)
             0%N effects.

Definition is_other (o : BindOutcome) : bool :=
  match o with
  | BindOtherError => true
  | _ => false
  end.

(** ** Identifiers and messages on the wire *)

(** [s] has no [sep] in it. *)
Fixpoint free_of (sep : ascii) (s : string) : bool :=
  match s with
  | EmptyString => true
  | String c s' => negb (Ascii.eqb c sep) && free_of sep s'
  end.

(** The [type] field of a message as the other side reads it. *)
Definition type_tag (t : MessageType) : string :=
  match t with
  | challenge => "challenge"
  | verification => "verification"
  end.

(** A message that was sent, as the ['data'] event of the other side. *)
Definition wire (m : ConnectionMessage) : ConnEvent :=
  ConnData (JObject (Some (type_tag (msg_type m))) (Some (message m))).

(** Membership in a list that computes. *)
Ltac in_list := vm_compute; repeat (first [left; reflexivity | right]).

(** * Properties *)

(** ** The handshake handler *)

Section HandshakeFacts.
Context `{ext : Externals}.

Implicit Types (storage : gmap string string) (nonce myPubkey : string).
Implicit Types (target : option string) (data : JsData).

Lemma truthy_None : truthy None = false.
Proof. reflexivity. Qed.

Lemma on_challenge_no_key storage myPubkey m :
  truthy (storage !! storeId myPubkey) = false ->
  on_challenge storage myPubkey m = Ok [].
Proof. intros Hkey. unfold on_challenge. now rewrite Hkey. Qed.

Lemma on_verification_empty nonce target m :
  truthy m = false -> on_verification nonce target m = Ok [].
Proof. intros Hm. unfold on_verification. now rewrite Hm. Qed.

(** Whatever the challenge block does, it is nothing or one reply. *)
Lemma on_challenge_shape storage myPubkey m actions :
  on_challenge storage myPubkey m = Ok actions ->
  actions = [] \/ exists sig, actions = [Send {| msg_type := verification; message := sig |}].
Proof.
  unfold on_challenge.
  destruct (truthy (storage !! storeId myPubkey)); cbn [negb].
  - destruct (bs58_decode _) as [decoded|]; cbn; [|discriminate].
    destruct (Keypair_fromSecretKey decoded) as [secretKey|]; cbn; [|discriminate].
    destruct (nacl_sign_detached _ secretKey) as [sig|]; cbn; [|discriminate].
    intros [= <-]. right. eauto.
  - intros [= <-]. now left.
Qed.

(** Whatever the verification block does, it is nothing or one verdict, and
    the verdict is what the signature check said about the local nonce and
    the claimed key. *)
Lemma on_verification_shape nonce target m actions :
  on_verification nonce target m = Ok actions ->
  actions = [] \/
  exists signature k pubkey result,
    bs58_decode (default ""%string m) = Ok signature /\
    target = Some k /\ PublicKey_toBytes k = Ok pubkey /\
    nacl_sign_detached_verify (TextEncoder_encode (Some nonce)) signature pubkey = Ok result /\
    actions = [OnVerify result].
Proof.
  unfold on_verification.
  destruct (truthy m); cbn [negb].
  - destruct (bs58_decode _) as [signature|] eqn:Hsig; cbn; [|discriminate].
    destruct target as [k|]; cbn; [|discriminate].
    destruct (PublicKey_toBytes k) as [pubkey|] eqn:Hpk; cbn; [|discriminate].
    destruct (nacl_sign_detached_verify _ signature pubkey) as [result|] eqn:Hv; cbn;
      [|discriminate].
    intros [= <-]. right. exists signature, k, pubkey, result. auto.
  - intros [= <-]. now left.
Qed.


Lemma on_data_handled storage nonce myPubkey target data :
  Handled storage nonce myPubkey target data (on_data storage nonce myPubkey target data).
Proof.
  unfold on_data.
  destruct (try_data storage nonce myPubkey target data) as [actions|] eqn:Htry;
    [|now apply HRaised].
  destruct data as [|[t|] m]; cbn in Htry; try discriminate.
  - destruct (String.eqb_spec t "challenge") as [->|_].
    + apply on_challenge_shape in Htry as [->|[sig ->]]; [apply HIgnored|].
      now apply HReplied with (m := m).
    + destruct (String.eqb_spec t "verification") as [->|_].
      * apply on_verification_shape in Htry
          as [->|(signature & k & pubkey & result & ? & ? & ? & ? & ->)];
          [apply HIgnored|].
        now apply HJudged with (m := m) (signature := signature) (k := k) (pubkey := pubkey).
      * injection Htry as <-. apply HIgnored.
  - injection Htry as <-. apply HIgnored.
Qed.

End HandshakeFacts.

Section HandshakeClaims.
Context `{ext : Externals}.

Implicit Types (storage : gmap string string) (nonce myPubkey : string).
Implicit Types (target : option string) (data : JsData).

(** C10, as the code has it.  A ['data'] event whose payload is null or
    undefined has no [type] to read: reading it raises, and the handler
    closes the connection, sending nothing and calling no [onVerify].  For
    every other payload, a [type] that is neither ['challenge'] nor
    ['verification'], or a ['verification'] with an empty (falsy) [message],
    or a ['challenge'] that arrives while no device key is stored for the
    local identity, makes the handler return having done nothing: no reply
    is sent, [onVerify] is not called and the connection is not closed. *)
Theorem data_event_ignored storage nonce myPubkey target tag m :
  on_data storage nonce myPubkey target JNullish = [Close]
  /\ ((tag <> Some "challenge"%string /\ tag <> Some "verification"%string)
      \/ (tag = Some "verification"%string /\ truthy m = false)
      \/ (tag = Some "challenge"%string /\ truthy (storage !! storeId myPubkey) = false) ->
      on_data storage nonce myPubkey target (JObject tag m) = []).
Proof.
  split; [reflexivity|].
  intros [[Hc Hv]|[[-> Hm]|[-> Hkey]]]; unfold on_data, try_data.
  - destruct tag as [t|]; [|reflexivity].
    destruct (String.eqb_spec t "challenge") as [->|_]; [now destruct Hc|].
    destruct (String.eqb_spec t "verification") as [->|_]; [now destruct Hv|].
    reflexivity.
  - cbn. now rewrite on_verification_empty.
  - cbn. now rewrite on_challenge_no_key.
Qed.


End HandshakeClaims.

(** ** The slot loop of [init] *)


Section InitLoop.

Implicit Types (devicePubkey : string) (answers : list BindOutcome).
Implicit Types (slot : nat) (probes : list Probe).

Lemma init_loop_done devicePubkey answers slot :
  10 <= slot -> init_loop devicePubkey answers slot = ([], Exhausted).
Proof.
  intros Hge. destruct answers; cbn [init_loop];
    destruct (Nat.ltb_spec slot 10); (lia || reflexivity).
Qed.

Lemma init_loop_nil devicePubkey slot :
  slot < 10 -> init_loop devicePubkey [] slot = ([], Awaiting slot).
Proof.
  intros Hlt. cbn [init_loop]. destruct (Nat.ltb_spec slot 10); (lia || reflexivity).
Qed.

Lemma init_loop_open devicePubkey answers slot :
  slot < 10 ->
  init_loop devicePubkey (BindOpen :: answers) slot =
  ([{| probe_slot := slot; probe_outcome := BindOpen; probe_delay := 0 |}],
   Bound (newPeer (pygmy_id devicePubkey slot))).
Proof.
  intros Hlt. cbn [init_loop]. destruct (Nat.ltb_spec slot 10); (lia || reflexivity).
Qed.

Lemma init_loop_taken devicePubkey answers slot :
  slot < 10 ->
  init_loop devicePubkey (BindUnavailableId :: answers) slot =
  ({| probe_slot := slot; probe_outcome := BindUnavailableId; probe_delay := 0 |}
     :: fst (init_loop devicePubkey answers (S slot)),
   snd (init_loop devicePubkey answers (S slot))).
Proof.
  intros Hlt. cbn [init_loop]. destruct (Nat.ltb_spec slot 10); [|lia].
  cbn [negb]. now destruct (init_loop devicePubkey answers (S slot)).
Qed.

Lemma init_loop_retry devicePubkey answers slot :
  slot < 10 ->
  init_loop devicePubkey (BindOtherError :: answers) slot =
  ({| probe_slot := slot; probe_outcome := BindOtherError; probe_delay := 5000 |}
     :: fst (init_loop devicePubkey answers slot),
   snd (init_loop devicePubkey answers slot)).
Proof.
  intros Hlt. cbn [init_loop]. destruct (Nat.ltb_spec slot 10); [|lia].
  cbn [negb]. now destruct (init_loop devicePubkey answers slot).
Qed.

(** Every run of the loop has the shape [Run]. *)
Lemma init_loop_run devicePubkey answers :
  forall slot, Run slot (fst (init_loop devicePubkey answers slot)).
Proof.
  induction answers as [|o answers IH]; intros slot;
    destruct (Nat.lt_ge_cases slot 10) as [Hlt|Hge];
    try (rewrite init_loop_done by assumption; apply run_stop).
  - rewrite init_loop_nil by assumption. apply run_stop.
  - destruct o.
    + rewrite init_loop_open by assumption. now apply run_open.
    + rewrite init_loop_taken by assumption. apply run_taken; [assumption|apply IH].
    + rewrite init_loop_retry by assumption. apply run_retry; [assumption|apply IH].
Qed.

Lemma Run_lower slot probes :
  Run slot probes -> forall q, In q probes -> slot <= probe_slot q < 10.
Proof.
  induction 1 as [slot|slot Hlt|slot probes Hlt _ IH|slot probes Hlt _ IH];
    intros q Hq; cbn in Hq.
  - contradiction.
  - destruct Hq as [<-|[]]. cbn. lia.
  - destruct Hq as [<-|Hq]; [cbn; lia|]. specialize (IH q Hq). lia.
  - destruct Hq as [<-|Hq]; [cbn; lia|]. apply (IH q Hq).
Qed.

Lemma Run_head slot p probes : Run slot (p :: probes) -> probe_slot p = slot.
Proof. now inversion 1. Qed.

Lemma Run_tail slot p probes :
  Run slot (p :: probes) ->
  match probe_outcome p with
  | BindOpen => probes = []
  | BindUnavailableId => probe_delay p = 0%N /\ Run (S (probe_slot p)) probes
  | BindOtherError => probe_delay p = 5000%N /\ Run (probe_slot p) probes
  end.
Proof. inversion 1; subst; cbn; auto. Qed.

(** Two probes in a row. *)
Lemma Run_step slot probes :
  Run slot probes ->
  forall i p q, probes !! i = Some p -> probes !! S i = Some q ->
  match probe_outcome p with
  | BindOpen => False
  | BindUnavailableId => probe_delay p = 0%N /\ probe_slot q = S (probe_slot p)
  | BindOtherError => probe_delay p = 5000%N /\ probe_slot q = probe_slot p
  end.
Proof.
  intros Hrun i. revert slot probes Hrun.
  induction i as [|i IH]; intros slot probes Hrun p q Hp Hq.
  - destruct probes as [|p' [|q' probes]]; try discriminate.
    injection Hp as ->. injection Hq as ->.
    apply Run_tail in Hrun. destruct (probe_outcome p).
    + discriminate.
    + destruct Hrun as [Hd Hrun]. split; [assumption|]. apply (Run_head _ _ _ Hrun).
    + destruct Hrun as [Hd Hrun]. split; [assumption|]. apply (Run_head _ _ _ Hrun).
  - destruct probes as [|p' probes]; [discriminate|].
    apply Run_tail in Hrun. cbn in Hp, Hq.
    destruct (probe_outcome p').
    + subst probes. discriminate.
    + destruct Hrun as [_ Hrun]. apply (IH _ _ Hrun p q Hp Hq).
    + destruct Hrun as [_ Hrun]. apply (IH _ _ Hrun p q Hp Hq).
Qed.

(** Slots never go down, and a slot found taken is left for good. *)
Lemma Run_later slot probes :
  Run slot probes ->
  forall i j p q, i < j -> probes !! i = Some p -> probes !! j = Some q ->
  probe_slot p <= probe_slot q /\
  (probe_outcome p = BindUnavailableId -> probe_slot p < probe_slot q).
Proof.
  intros Hrun i. revert slot probes Hrun.
  induction i as [|i IH]; intros slot probes Hrun j p q Hij Hp Hq;
    (destruct j as [|j]; [lia|]);
    (destruct probes as [|p' probes]; [discriminate|]); cbn in Hp, Hq.
  - injection Hp as ->.
    assert (Hin : In q probes) by (apply list_elem_of_In; eapply list_elem_of_lookup_2; eauto).
    apply Run_tail in Hrun. destruct (probe_outcome p).
    + subst probes. destruct Hin.
    + destruct Hrun as [_ Hrun]. pose proof (Run_lower _ _ Hrun q Hin). split; intros; lia.
    + destruct Hrun as [_ Hrun]. pose proof (Run_lower _ _ Hrun q Hin).
      split; [lia|discriminate].
  - apply Run_tail in Hrun. destruct (probe_outcome p').
    + subst probes. discriminate.
    + destruct Hrun as [_ Hrun]. apply (IH _ _ Hrun j p q); (lia || assumption).
    + destruct Hrun as [_ Hrun]. apply (IH _ _ Hrun j p q); (lia || assumption).
Qed.

(** Only the retry after another error waits. *)
Lemma Run_delay slot probes :
  Run slot probes ->
  forall p, In p probes ->
  probe_delay p = match probe_outcome p with
                  | BindOtherError => 5000%N
                  | _ => 0%N
                  end.
Proof.
  induction 1 as [slot|slot Hlt|slot probes Hlt _ IH|slot probes Hlt _ IH];
    intros p Hp; cbn in Hp.
  - contradiction.
  - now destruct Hp as [<-|[]].
  - destruct Hp as [<-|Hp]; [reflexivity|now apply IH].
  - destruct Hp as [<-|Hp]; [reflexivity|now apply IH].
Qed.

(** The taken slots are consecutive from the slot of the entry. *)
Lemma Run_taken_slots slot probes :
  Run slot probes -> taken_slots probes = seq slot (length (taken_slots probes)).
Proof.
  unfold taken_slots.
  induction 1 as [slot|slot Hlt|slot probes Hlt _ IH|slot probes Hlt _ IH]; cbn.
  - reflexivity.
  - reflexivity.
  - f_equal. exact IH.
  - exact IH.
Qed.

(** A run that ends with every slot taken went through [10 - slot] of them. *)
Lemma init_loop_exhausted devicePubkey answers :
  forall slot probes,
  init_loop devicePubkey answers slot = (probes, Exhausted) ->
  length (taken_slots probes) = 10 - slot.
Proof.
  induction answers as [|o answers IH]; intros slot probes;
    destruct (Nat.lt_ge_cases slot 10) as [Hlt|Hge];
    try (rewrite init_loop_done by assumption; intros [= <-]; cbn; lia).
  - rewrite init_loop_nil by assumption. discriminate.
  - destruct o.
    + rewrite init_loop_open by assumption. discriminate.
    + rewrite init_loop_taken by assumption. intros [= <- Hst].
      unfold taken_slots in *. cbn.
      rewrite (IH (S slot) (fst (init_loop devicePubkey answers (S slot)))); [lia|].
      rewrite <- Hst. now destruct (init_loop devicePubkey answers (S slot)).
    + rewrite init_loop_retry by assumption. intros [= <- Hst].
      unfold taken_slots in *. cbn.
      apply IH. rewrite <- Hst. now destruct (init_loop devicePubkey answers slot).
Qed.

(** A run that ends with a peer bound it on a slot below 10, fresh from the
    probe. *)
Lemma init_loop_bound devicePubkey answers :
  forall slot probes peer,
  init_loop devicePubkey answers slot = (probes, Bound peer) ->
  exists s, slot <= s < 10 /\ peer = newPeer (pygmy_id devicePubkey s).
Proof.
  induction answers as [|o answers IH]; intros slot probes peer;
    destruct (Nat.lt_ge_cases slot 10) as [Hlt|Hge];
    try (rewrite init_loop_done by assumption; discriminate).
  - rewrite init_loop_nil by assumption. discriminate.
  - destruct o.
    + rewrite init_loop_open by assumption. intros [= _ <-]. exists slot. split; [lia|easy].
    + rewrite init_loop_taken by assumption. intros [= _ Hst].
      destruct (IH (S slot) (fst (init_loop devicePubkey answers (S slot))) peer)
        as (s & Hs & ->).
      { rewrite <- Hst. now destruct (init_loop devicePubkey answers (S slot)). }
      exists s. split; [lia|easy].
    + rewrite init_loop_retry by assumption. intros [= _ Hst].
      apply (IH slot (fst (init_loop devicePubkey answers slot)) peer).
      rewrite <- Hst. now destruct (init_loop devicePubkey answers slot).
Qed.

(** While the transport keeps failing with other errors the loop stays on
    its slot. *)
Lemma init_loop_stuck devicePubkey slot n :
  slot < 10 ->
  init_loop devicePubkey (repeat BindOtherError n) slot =
  (repeat {| probe_slot := slot; probe_outcome := BindOtherError; probe_delay := 5000 |} n,
   Awaiting slot).
Proof.
  intros Hlt. induction n as [|n IH]; cbn [repeat].
  - now apply init_loop_nil.
  - rewrite init_loop_retry by assumption. now rewrite IH.
Qed.

(** The same after any answers that left the loop waiting: further errors
    of that kind are further probes of the slot it was on. *)
Lemma init_loop_keeps_retrying devicePubkey answers :
  forall slot s n,
  snd (init_loop devicePubkey answers slot) = Awaiting s ->
  init_loop devicePubkey (answers ++ repeat BindOtherError n) slot =
  (fst (init_loop devicePubkey answers slot)
     ++ repeat {| probe_slot := s; probe_outcome := BindOtherError;
                  probe_delay := 5000 |} n,
   Awaiting s).
Proof.
  induction answers as [|o answers IH]; intros slot s n;
    destruct (Nat.lt_ge_cases slot 10) as [Hlt|Hge];
    try (rewrite init_loop_done by assumption; discriminate).
  - rewrite init_loop_nil by assumption. intros [= <-]. cbn [app fst].
    now apply init_loop_stuck.
  - cbn [app]. destruct o.
    + rewrite init_loop_open by assumption. discriminate.
    + rewrite !init_loop_taken by assumption. cbn [fst snd]. intros Hst.
      now rewrite (IH _ _ n Hst).
    + rewrite !init_loop_retry by assumption. cbn [fst snd]. intros Hst.
      now rewrite (IH _ _ n Hst).
Qed.

(** The loop ends once the transport has let a bind through or has reported
    enough slots taken. *)
Lemma init_loop_ends devicePubkey answers :
  forall slot,
  In BindOpen answers \/ 10 - slot <= length (List.filter is_unavailable answers) ->
  forall s, snd (init_loop devicePubkey answers slot) <> Awaiting s.
Proof.
  induction answers as [|o answers IH]; intros slot Hans s;
    destruct (Nat.lt_ge_cases slot 10) as [Hlt|Hge];
    try (rewrite init_loop_done by assumption; discriminate).
  - destruct Hans as [[]|Hans]. cbn in Hans. lia.
  - destruct o.
    + rewrite init_loop_open by assumption. discriminate.
    + rewrite init_loop_taken by assumption. cbn [snd]. apply IH.
      destruct Hans as [[Ho|Hin]|Hans]; [discriminate|now left|right].
      cbn in Hans. lia.
    + rewrite init_loop_retry by assumption. cbn [snd]. apply IH.
      destruct Hans as [[Ho|Hin]|Hans]; [discriminate|now left|right].
      cbn in Hans. lia.
Qed.

(** The first slot that is free is the one that gets bound: after [k] slots
    found taken, each left without a wait, the bind is on slot [slot + k]. *)
Lemma init_loop_first_free devicePubkey rest k :
  forall slot, slot + k < 10 ->
  init_loop devicePubkey (repeat BindUnavailableId k ++ BindOpen :: rest) slot =
  (map (fun s => {| probe_slot := s; probe_outcome := BindUnavailableId;
                    probe_delay := 0 |}) (seq slot k)
     ++ [{| probe_slot := slot + k; probe_outcome := BindOpen; probe_delay := 0 |}],
   Bound (newPeer (pygmy_id devicePubkey (slot + k)))).
Proof.
  induction k as [|k IH]; intros slot Hlt; cbn [repeat app seq map].
  - rewrite init_loop_open by lia. now rewrite Nat.add_0_r.
  - rewrite init_loop_taken by lia. rewrite (IH (S slot)) by lia.
    cbn [fst snd]. now rewrite Nat.add_succ_r.
Qed.

End InitLoop.

(** The first probe of a run takes the first answer, on the slot of the
    entry. *)
Lemma init_loop_head (devicePubkey : string) (o : BindOutcome)
    (answers : list BindOutcome) (slot : nat) :
  slot < 10 ->
  exists p, fst (init_loop devicePubkey (o :: answers) slot) !! 0 = Some p
    /\ probe_slot p = slot /\ probe_outcome p = o.
Proof.
  intros Hlt. destruct o.
  - rewrite init_loop_open by assumption. eexists. repeat split.
  - rewrite init_loop_taken by assumption. eexists. repeat split.
  - rewrite init_loop_retry by assumption. eexists. repeat split.
Qed.

(** The probe of rank [i] takes the answer of rank [i], and its slot is the
    slot of the entry plus the number of answers before it that said
    'unavailable-id'. *)
Lemma init_loop_answers (devicePubkey : string) (answers : list BindOutcome) :
  forall slot i p,
  fst (init_loop devicePubkey answers slot) !! i = Some p ->
  answers !! i = Some (probe_outcome p)
  /\ probe_slot p = slot + length (List.filter is_unavailable (take i answers))
  /\ probe_slot p < 10.
Proof.
  induction answers as [|o answers IH]; intros slot i p;
    destruct (Nat.lt_ge_cases slot 10) as [Hlt|Hge];
    try (rewrite init_loop_done by assumption; discriminate).
  - rewrite init_loop_nil by assumption. discriminate.
  - destruct o.
    + rewrite init_loop_open by assumption. destruct i as [|i]; [|discriminate].
      intros [= <-]. cbn. repeat split; (lia || reflexivity).
    + rewrite init_loop_taken by assumption. destruct i as [|i]; cbn [fst].
      * intros [= <-]. cbn. repeat split; (lia || reflexivity).
      * intros Hp. destruct (IH (S slot) i p Hp) as (Ha & Hs & Hlt').
        cbn. repeat split; (assumption || lia).
    + rewrite init_loop_retry by assumption. destruct i as [|i]; cbn [fst].
      * intros [= <-]. cbn. repeat split; (lia || reflexivity).
      * intros Hp. destruct (IH slot i p Hp) as (Ha & Hs & Hlt').
        cbn. repeat split; (assumption || lia).
Qed.

(** What follows a probe: nothing after a bind; after 'unavailable-id' the
    next slot, at once, unless the slot was the last one; after another
    error the same slot. *)
Lemma init_loop_goes_on (devicePubkey : string) (answers : list BindOutcome) :
  forall slot i p,
  let run := init_loop devicePubkey answers slot in
  fst run !! i = Some p ->
  match probe_outcome p with
  | BindOpen =>
      fst run !! S i = None
      /\ snd run = Bound (newPeer (pygmy_id devicePubkey (probe_slot p)))
  | BindUnavailableId =>
      probe_delay p = 0%N
      /\ if probe_slot p =? 9 then fst run !! S i = None /\ snd run = Exhausted
         else goes_on answers run i (S (probe_slot p))
  | BindOtherError =>
      probe_delay p = 5000%N /\ goes_on answers run i (probe_slot p)
  end.
Proof.
  assert (Hfirst : forall o answers' slot' p0,
            slot' < 10 ->
            goes_on (o :: answers')
              (p0 :: fst (init_loop devicePubkey answers' slot'),
               snd (init_loop devicePubkey answers' slot')) 0 slot').
  { intros o answers' slot' p0 Hlt. unfold goes_on. cbn [fst snd].
    change ((o :: answers') !! 1) with (answers' !! 0).
    change ((p0 :: fst (init_loop devicePubkey answers' slot')) !! 1)
      with (fst (init_loop devicePubkey answers' slot') !! 0).
    destruct answers' as [|o' answers'].
    - rewrite init_loop_nil by assumption. now split.
    - exact (init_loop_head devicePubkey o' answers' slot' Hlt). }
  induction answers as [|o answers IH]; intros slot i p; cbv zeta;
    destruct (Nat.lt_ge_cases slot 10) as [Hlt|Hge];
    try (rewrite init_loop_done by assumption; discriminate).
  - rewrite init_loop_nil by assumption. discriminate.
  - destruct o.
    + rewrite init_loop_open by assumption. destruct i as [|i]; [|discriminate].
      intros [= <-]. cbn. now split.
    + rewrite init_loop_taken by assumption. destruct i as [|i]; cbn [fst snd].
      * intros [= <-]. cbn [probe_outcome probe_delay probe_slot].
        split; [reflexivity|].
        destruct (Nat.eqb_spec slot 9) as [->|Hne].
        -- now rewrite init_loop_done by lia.
        -- apply Hfirst. lia.
      * intros Hp. exact (IH (S slot) i p Hp).
    + rewrite init_loop_retry by assumption. destruct i as [|i]; cbn [fst snd].
      * intros [= <-]. cbn [probe_outcome probe_delay probe_slot].
        split; [reflexivity|]. now apply Hfirst.
      * intros Hp. exact (IH slot i p Hp).
Qed.

(** C5.  The slot loop of [init] against the answers of the transport.  The
    first answer is the answer to a probe of slot 0, and the probe of rank
    [i] takes the answer of rank [i].  After a probe that found its slot
    taken ('unavailable-id') the loop goes on at once, with no wait, and
    with the next slot: the next answer is the answer to a probe of that
    slot, and while there is none the loop is waiting on that slot; only
    after slot 9 does it end, with no peer.  After another error it goes on
    with the same slot, and after a bind it has ended with the peer of that
    slot.  So the slot of a probe is the number of answers before it that
    said 'unavailable-id': the slots never go down, a slot that was found
    taken is never tried again, and the slots found taken are 0, 1, 2, ...
    without a gap. *)
Theorem slots_probed_in_ascending_order (devicePubkey : string)
    (answers : list BindOutcome) :
  let run := init_loop devicePubkey answers 0 in
  let probes := fst run in
  (answers = [] -> run = ([], Awaiting 0))
  /\ (forall o, answers !! 0 = Some o ->
        exists p, probes !! 0 = Some p /\ probe_slot p = 0 /\ probe_outcome p = o)
  /\ (forall i p, probes !! i = Some p ->
        answers !! i = Some (probe_outcome p)
        /\ probe_slot p = length (List.filter is_unavailable (take i answers))
        /\ probe_slot p < 10)
  /\ (forall i p, probes !! i = Some p ->
        match probe_outcome p with
        | BindOpen =>
            probes !! S i = None
            /\ snd run = Bound (newPeer (pygmy_id devicePubkey (probe_slot p)))
        | BindUnavailableId =>
            probe_delay p = 0%N
            /\ if probe_slot p =? 9 then probes !! S i = None /\ snd run = Exhausted
               else goes_on answers run i (S (probe_slot p))
        | BindOtherError =>
            probe_delay p = 5000%N /\ goes_on answers run i (probe_slot p)
        end)
  /\ (forall i j p q, i < j -> probes !! i = Some p -> probes !! j = Some q ->
        probe_slot p <= probe_slot q /\
        (probe_outcome p = BindUnavailableId -> probe_slot p < probe_slot q))
  /\ taken_slots probes = seq 0 (length (taken_slots probes)).
Proof.
  cbv zeta. pose proof (init_loop_run devicePubkey answers 0) as Hrun.
  repeat apply conj.
  - intros ->. apply init_loop_nil. lia.
  - intros o Ho. destruct answers as [|o' answers]; [discriminate|].
    injection Ho as ->. apply init_loop_head. lia.
  - intros i p Hp. exact (init_loop_answers devicePubkey answers 0 i p Hp).
  - intros i p Hp. exact (init_loop_goes_on devicePubkey answers 0 i p Hp).
  - apply (Run_later _ _ Hrun).
  - apply (Run_taken_slots _ _ Hrun).
Qed.

Section InitClaims.
Context `{ext : Externals}.

(** The probes leave no listener behind and hand nothing to the
    application. *)
Lemma probe_effects_shape devicePubkey probes e :
  In e (flat_map (probe_effects devicePubkey) probes) ->
  (exists id, e = NewPeer id) \/ (exists ms, e = Backoff ms).
Proof.
  rewrite in_flat_map. intros (p & _ & He). unfold probe_effects in He.
  destruct He as [<-|He]; [left; eauto|].
  destruct (0 <? probe_delay p)%N; [|contradiction].
  destruct He as [<-|[]]. right; eauto.
Qed.

(** Reading the device key changes no atom but the one it reads. *)
Lemma get_myDevicePubkeyAtom_atoms (st st1 : State) (pubkey : string) (fresh : Bytes)
    (r : Result string) :
  get_myDevicePubkeyAtom st pubkey fresh = (r, st1) ->
  myPeerAtom st1 = myPeerAtom st
  /\ isNetworkOnlineAtom st1 = isNetworkOnlineAtom st
  /\ userWalletAtom st1 = userWalletAtom st
  /\ p2pAtomValue st1 = p2pAtomValue st.
Proof.
  unfold get_myDevicePubkeyAtom.
  destruct (deviceKeyCache st !! pubkey) as [kept|]; [now intros [= _ <-]|].
  destruct (myDevicePubkeyAtom _ _ _) as [[devicePubkey storage]|];
    now intros [= _ <-].
Qed.

(** X2.  When the first [k] slots are taken and slot [k] is free, [init] makes
    [k] probes that fail at once, binds slot [k], and waits for no backoff:
    all it does before installing the listeners is to create the [k + 1]
    peers. *)
Theorem first_free_slot_wins (env : Env) (st st1 : State) (key devicePubkey : string)
    (rest : list BindOutcome) (k : nat) :
  k < 10 ->
  get_myDevicePubkeyAtom st key (generated env) = (Ok devicePubkey, st1) ->
  binds env = repeat BindUnavailableId k ++ BindOpen :: rest ->
  let peer := newPeer (pygmy_id devicePubkey k) in
  init_case env st key =
  Returned (set_myPeerAtom (Some (install key peer)) st1)
           (map (fun s => NewPeer (pygmy_id devicePubkey s)) (seq 0 (S k))
              ++ install_effects key peer).
Proof.
  intros Hk Hkey Hbinds peer. unfold init_case.
  rewrite Hkey, Hbinds, (init_loop_first_free devicePubkey rest k 0) by lia.
  cbn [Nat.add]. subst peer. f_equal. f_equal.
  assert (Hfast : forall slots,
            flat_map (probe_effects devicePubkey)
              (map (fun s => {| probe_slot := s; probe_outcome := BindUnavailableId;
                                probe_delay := 0 |}) slots)
            = map (fun s => NewPeer (pygmy_id devicePubkey s)) slots).
  { induction slots as [|s slots IH]; [reflexivity|]. cbn. now rewrite IH. }
  rewrite flat_map_app, Hfast, seq_S, map_app. reflexivity.
Qed.

(** C4, as the code has it.  In the slot loop of [init] a bind error other
    than 'unavailable-id' is followed by a 5000 ms wait and then by a probe
    of the same slot.  There is no attempt budget: wherever the loop is
    waiting, any number of further errors of that kind are that many further
    probes of the same slot, each followed by the wait, and the loop is
    still waiting on that slot.  The loop ends once the transport has let a
    bind through or has reported ten slots taken. *)
Theorem other_error_retries_same_slot (devicePubkey : string)
    (answers : list BindOutcome) :
  let probes := fst (init_loop devicePubkey answers 0) in
  (forall i p q, probes !! i = Some p -> probes !! S i = Some q ->
     probe_outcome p = BindOtherError ->
     probe_delay p = 5000%N /\ probe_slot q = probe_slot p)
  /\ (forall s n, snd (init_loop devicePubkey answers 0) = Awaiting s ->
        init_loop devicePubkey (answers ++ repeat BindOtherError n) 0 =
        (probes ++ repeat {| probe_slot := s; probe_outcome := BindOtherError;
                             probe_delay := 5000 |} n,
         Awaiting s))
  /\ (In BindOpen answers \/ 10 <= length (List.filter is_unavailable answers) ->
        forall s, snd (init_loop devicePubkey answers 0) <> Awaiting s).
Proof.
  cbv zeta. pose proof (init_loop_run devicePubkey answers 0) as Hrun.
  repeat apply conj.
  - intros i p q Hp Hq Ho. pose proof (Run_step _ _ Hrun i p q Hp Hq) as Hstep.
    now rewrite Ho in Hstep.
  - intros s n Hst. now apply init_loop_keeps_retrying.
  - intros Hans. apply init_loop_ends.
    destruct Hans as [Hin|Hn]; [now left|right; lia].
Qed.

(** C7.  When the slot loop of [init] ends with all ten slots taken and no
    peer, [init] returns (it does not raise), the stored peer is what it was
    (null when it was null) and so is the online state, and nothing was done
    to the outside but creating the probes and waiting: no listener was
    registered and no connection was handed on. *)
Theorem init_exhausted_leaves_offline (env : Env) (st st1 : State)
    (key devicePubkey : string) (probes : list Probe) :
  get_myDevicePubkeyAtom st key (generated env) = (Ok devicePubkey, st1) ->
  init_loop devicePubkey (binds env) 0 = (probes, Exhausted) ->
  exists st' effects,
    init_case env st key = Returned st' effects
    /\ myPeerAtom st' = myPeerAtom st
    /\ (myPeerAtom st = None -> myPeerAtom st' = None)
    /\ myOnlineStateAtom st' = myOnlineStateAtom st
    /\ userWalletAtom st' = userWalletAtom st
    /\ (forall e, In e effects -> (exists id, e = NewPeer id) \/ (exists ms, e = Backoff ms))
    /\ taken_slots probes = seq 0 10.
Proof.
  intros Hkey Hloop.
  destruct (get_myDevicePubkeyAtom_atoms _ _ _ _ _ Hkey) as (Hpeer & Hnet & Hwallet & _).
  exists st1, (flat_map (probe_effects devicePubkey) probes).
  repeat apply conj.
  - unfold init_case. now rewrite Hkey, Hloop.
  - exact Hpeer.
  - intros Hnone. now rewrite Hpeer.
  - unfold myOnlineStateAtom. now rewrite Hpeer, Hnet.
  - exact Hwallet.
  - apply probe_effects_shape.
  - pose proof (init_loop_run devicePubkey (binds env) 0) as Hrun.
    rewrite Hloop in Hrun. cbn [fst] in Hrun.
    rewrite (Run_taken_slots _ _ Hrun).
    now rewrite (init_loop_exhausted _ _ _ _ Hloop).
Qed.

(** C8.  [destroy] always returns, and leaves the stored peer null with the
    other atoms as they were.  A second [destroy] right after it returns
    too, changes nothing and does nothing to the outside; the same holds for
    a [destroy] in any state whose stored peer is null. *)
Theorem destroy_idempotent (env : Env) (st : State) :
  exists effects,
    let st1 := set_myPeerAtom None st in
    p2pAtom env st destroy = Returned st1 effects
    /\ myPeerAtom st1 = None
    /\ p2pAtom env st1 destroy = Returned st1 []
    /\ effects = match myPeerAtom st with
                 | Some peer => if destroyed peer then [] else [PeerDestroy (peer_id peer)]
                 | None => []
                 end.
Proof.
  destruct st as [[peer|] net wallet storage value kept]; cbn.
  - eexists. repeat split.
  - eexists. repeat split.
Qed.

(** The peer [init] stores: the probe's listeners are gone, the two lasting
    ones are there. *)
Lemma install_newPeer (key id : string) :
  install key (newPeer id) =
  {| peer_id := id; destroyed := false;
     listeners := [(EvError, DestroyOnError); (EvConnection, ValidateInbound key)] |}.
Proof. reflexivity. Qed.

(** An ['error'] event on such a peer assigns the value of [p2pAtom] and
    does nothing else. *)
Lemma on_error_installed (fatal : bool) (st : State) (key id : string) :
  myPeerAtom st = Some (install key (newPeer id)) ->
  on_error fatal st =
  (set_p2pAtomValue (Some destroy)
     (set_myPeerAtom (Some (transport_destroys fatal (install key (newPeer id)))) st),
   []).
Proof.
  intros Hpeer. unfold on_error. rewrite Hpeer, install_newPeer. reflexivity.
Qed.

(** C9, what the code does.  After an [init] that bound a peer, the stored
    peer is that peer with the error listener of lines 147-150 on it (the
    online state is ['online'] when the network is up).  An ['error'] event
    on it, whether or not the transport had destroyed the peer, makes
    [{type: 'destroy'}] the value of [p2pAtom] and runs no [destroy]: the
    peer stays stored, [peer.destroy()] is not called, the online state is
    what it was, and the state differs from the one a [destroy] leaves. *)
Theorem error_event_runs_no_destroy (env : Env) (st st1 : State)
    (key devicePubkey : string) (probes : list Probe) (peer : Peer) (fatal : bool) :
  get_myDevicePubkeyAtom st key (generated env) = (Ok devicePubkey, st1) ->
  init_loop devicePubkey (binds env) 0 = (probes, Bound peer) ->
  exists st' effects,
    init_case env st key = Returned st' effects
    /\ myPeerAtom st' = Some (install key peer)
    /\ myOnlineStateAtom st' = (if isNetworkOnlineAtom st then online else offline)
    /\ In (EvError, DestroyOnError) (listeners (install key peer))
    /\ p2pAtomValue (fst (on_error fatal st')) = Some destroy
    /\ myPeerAtom (fst (on_error fatal st'))
       = Some (transport_destroys fatal (install key peer))
    /\ myOnlineStateAtom (fst (on_error fatal st')) = myOnlineStateAtom st'
    /\ snd (on_error fatal st') = []
    /\ myPeerAtom (fst (destroy_case st')) = None
    /\ myPeerAtom (fst (on_error fatal st')) <> myPeerAtom (fst (destroy_case st')).
Proof.
  intros Hkey Hloop.
  destruct (get_myDevicePubkeyAtom_atoms _ _ _ _ _ Hkey) as (_ & Hnet & _).
  destruct (init_loop_bound _ _ _ _ _ Hloop) as (s & Hs & ->).
  eexists _, _. split.
  { unfold init_case. rewrite Hkey, Hloop. reflexivity. }
  rewrite (on_error_installed fatal _ key (pygmy_id devicePubkey s)) by reflexivity.
  rewrite install_newPeer. unfold myOnlineStateAtom, destroy_case. cbn.
  rewrite Hnet.
  repeat apply conj; try reflexivity.
  - now destruct (isNetworkOnlineAtom st).
  - now left.
  - discriminate.
Qed.

End InitClaims.

(** ** Connection attempts *)


Section Attempts.
Context `{ext : Externals}.
Variables (env : Env) (storage : gmap string string) (myPubkey key : string).

Lemma connect_actions_resolved c actions :
  snd (connect_actions c actions) = true <-> In (OnVerify true) actions.
Proof.
  induction actions as [|a actions IH]; cbn.
  - split; [discriminate|contradiction].
  - destruct (connect_actions c actions) as [effects resolved]. cbn in IH.
    destruct a as [m|[|]|]; cbn.
    2: { split; auto. }
    all: split; [intros Hr; right; now apply IH|].
    all: intros [Ha|Hin]; [discriminate|now apply IH].
Qed.

Lemma connect_actions_effects c actions :
  Forall (on_conn c) (fst (connect_actions c actions)).
Proof.
  induction actions as [|a actions IH]; cbn; [constructor|].
  destruct (connect_actions c actions) as [effects resolved]. cbn in IH.
  destruct a as [m|[|]|]; cbn; try assumption; constructor; try assumption.
  - left. eauto.
  - now right.
  - now right.
Qed.

(** An attempt settles within the 5000 ms of its timer. *)
Lemma await_attempt_settled nonce c evs :
  forall elapsed,
  (snd (await_attempt storage nonce myPubkey key c elapsed evs) <= 5000)%N.
Proof.
  induction evs as [|[delay ev] evs IH]; intros elapsed; cbn [await_attempt].
  - cbn. lia.
  - destruct (N.leb_spec 5000 (elapsed + delay)) as [Hle|Hlt]; [cbn; lia|].
    destruct ev as [|data|].
    + specialize (IH (elapsed + delay)%N).
      destruct (await_attempt _ _ _ _ _ _ evs) as [[effects conn] settled]. exact IH.
    + destruct (connect_actions c _) as [done [|]]; [cbn; lia|].
      specialize (IH (elapsed + delay)%N).
      destruct (await_attempt _ _ _ _ _ _ evs) as [[effects conn] settled]. exact IH.
    + cbn. lia.
Qed.

(** An attempt settles to a connection only when the handler called
    [onVerify(true)] on a message of that connection. *)
Lemma await_attempt_verified nonce c evs :
  forall elapsed c',
  snd (fst (await_attempt storage nonce myPubkey key c elapsed evs)) = Some c' ->
  c' = c /\
  exists data, In (ConnData data) (map snd evs) /\
    In (OnVerify true) (on_data storage nonce myPubkey (Some key) data).
Proof.
  induction evs as [|[delay ev] evs IH]; intros elapsed c'; cbn [await_attempt].
  - discriminate.
  - destruct (N.leb_spec 5000 (elapsed + delay)) as [Hle|Hlt]; [discriminate|].
    destruct ev as [|data|].
    + specialize (IH (elapsed + delay)%N c').
      destruct (await_attempt _ _ _ _ _ _ evs) as [[effects conn] settled].
      cbn in *. intros Hc. destruct (IH Hc) as (-> & data & Hin & Hv).
      split; [reflexivity|]. exists data. auto.
    + destruct (connect_actions c _) as [done resolved] eqn:Hact.
      destruct resolved.
      * cbn. intros [= <-]. split; [reflexivity|]. exists data. split; [now left|].
        apply (connect_actions_resolved c). now rewrite Hact.
      * specialize (IH (elapsed + delay)%N c').
        destruct (await_attempt _ _ _ _ _ _ evs) as [[effects conn] settled].
        cbn in *. intros Hc. destruct (IH Hc) as (-> & data' & Hin & Hv).
        split; [reflexivity|]. exists data'. auto.
    + discriminate.
Qed.

(** All an attempt does while it is awaited is to its own connection. *)
Lemma await_attempt_effects nonce c evs :
  forall elapsed,
  Forall (on_conn c) (fst (fst (await_attempt storage nonce myPubkey key c elapsed evs))).
Proof.
  induction evs as [|[delay ev] evs IH]; intros elapsed; cbn [await_attempt].
  - constructor.
  - destruct (N.leb_spec 5000 (elapsed + delay)) as [Hle|Hlt]; [constructor|].
    destruct ev as [|data|].
    + specialize (IH (elapsed + delay)%N).
      destruct (await_attempt _ _ _ _ _ _ evs) as [[effects conn] settled].
      cbn in *. constructor; [|assumption]. left. eauto.
    + pose proof (connect_actions_effects c
        (on_data storage nonce myPubkey (Some key) data)) as Hdone.
      destruct (connect_actions c _) as [done resolved]. cbn in Hdone.
      destruct resolved; [exact Hdone|].
      specialize (IH (elapsed + delay)%N).
      destruct (await_attempt _ _ _ _ _ _ evs) as [[effects conn] settled].
      cbn in *. apply Forall_app. auto.
    + constructor.
Qed.

Lemma attempt_slot_eq slot : attempt_slot (attempt env storage myPubkey key slot) = slot.
Proof.
  unfold attempt. now destruct (await_attempt _ _ _ _ _ _ _) as [[effects conn] settled].
Qed.

Lemma attempt_settled_le slot :
  (attempt_settled (attempt env storage myPubkey key slot) <= 5000)%N.
Proof.
  unfold attempt.
  pose proof (await_attempt_settled (getRandom env slot)
    {| conn_peer := pygmy_id key slot |} (events env slot) 0) as Hle.
  now destruct (await_attempt _ _ _ _ _ _ _) as [[effects conn] settled].
Qed.

Lemma attempt_verified slot c :
  attempt_conn (attempt env storage myPubkey key slot) = Some c ->
  c = {| conn_peer := pygmy_id key slot |} /\
  exists data, In (ConnData data) (map snd (events env slot)) /\
    In (OnVerify true) (on_data storage (getRandom env slot) myPubkey (Some key) data).
Proof.
  unfold attempt.
  pose proof (await_attempt_verified (getRandom env slot)
    {| conn_peer := pygmy_id key slot |} (events env slot) 0 c) as Hv.
  destruct (await_attempt _ _ _ _ _ _ _) as [[effects conn] settled]. exact Hv.
Qed.

(** What the handlers do when the promise has settled is to their own
    connection too. *)
Lemma late_events_effects nonce c evs :
  Forall (on_conn c) (late_events storage nonce myPubkey key c evs).
Proof.
  induction evs as [|[delay ev] evs IH]; cbn [late_events]; [constructor|].
  apply Forall_app. split; [|exact IH].
  destruct ev as [|data|].
  - apply connect_actions_effects.
  - apply connect_actions_effects.
  - constructor.
Qed.

(** Effects on a connection are no call of [peer.connect], hand nothing to
    the application and settle no promise. *)
Lemma on_conn_connects c effects :
  Forall (on_conn c) effects -> connects effects = [].
Proof. induction 1 as [|e effects [[m ->]| ->] _ IH]; cbn; auto. Qed.

Lemma on_conn_no_add c effects c' :
  Forall (on_conn c) effects -> ~ In (AddConnection c') effects.
Proof.
  intros Hfx Hin. rewrite Forall_forall in Hfx. apply list_elem_of_In in Hin.
  destruct (Hfx _ Hin) as [[m Hm]|Hm]; discriminate.
Qed.

(** The effects of an attempt: the call of [peer.connect], effects on the
    connection it gave, the settling of the promise, and effects on that
    connection again. *)
Lemma attempt_effects_shape slot :
  exists effects late,
    attempt_effects (attempt env storage myPubkey key slot) =
      PeerConnect (pygmy_id key slot) :: effects
        ++ [Settled (attempt_settled (attempt env storage myPubkey key slot))] ++ late
    /\ Forall (on_conn {| conn_peer := pygmy_id key slot |}) effects
    /\ Forall (on_conn {| conn_peer := pygmy_id key slot |}) late.
Proof.
  unfold attempt.
  pose proof (await_attempt_effects (getRandom env slot)
    {| conn_peer := pygmy_id key slot |} (events env slot) 0) as Hfx.
  destruct (await_attempt _ _ _ _ _ _ _) as [[effects conn] settled].
  eexists effects, _. split; [reflexivity|]. split; [exact Hfx|].
  apply late_events_effects.
Qed.

Lemma attempt_connects slot :
  connects (attempt_effects (attempt env storage myPubkey key slot)) = [pygmy_id key slot].
Proof.
  destruct (attempt_effects_shape slot) as (effects & late & -> & Hfx & Hlate).
  unfold connects. cbn. f_equal. rewrite !flat_map_app. cbn.
  fold (connects effects) (connects late).
  now rewrite (on_conn_connects _ _ Hfx), (on_conn_connects _ _ Hlate).
Qed.

Lemma attempt_no_add slot c :
  ~ In (AddConnection c) (attempt_effects (attempt env storage myPubkey key slot)).
Proof.
  destruct (attempt_effects_shape slot) as (effects & late & -> & Hfx & Hlate).
  cbn. intros [Hc|Hin]; [discriminate|].
  apply in_app_or in Hin as [Hin|[Hs|Hin]]; [|discriminate|].
  - exact (on_conn_no_add _ _ _ Hfx Hin).
  - exact (on_conn_no_add _ _ _ Hlate Hin).
Qed.

(** An attempt on a connection that carries no message settles to null. *)
Lemma attempt_silent slot :
  (forall e, In e (events env slot) -> forall data, snd e <> ConnData data) ->
  attempt_conn (attempt env storage myPubkey key slot) = None.
Proof.
  intros Hsilent.
  destruct (attempt_conn (attempt env storage myPubkey key slot)) as [c|] eqn:Hconn;
    [|reflexivity].
  apply attempt_verified in Hconn as (_ & data & Hin & _).
  apply in_map_iff in Hin as (e & He & Hin). now destruct (Hsilent e Hin data).
Qed.

(** The loop ends within the turns left up to slot 10. *)
Lemma connect_loop_total fuel :
  forall slot, 10 - slot <= fuel ->
  exists attempts conn,
    connect_loop fuel env storage myPubkey key slot = Some (attempts, conn).
Proof.
  induction fuel as [|fuel IH]; intros slot Hfuel; cbn [connect_loop];
    destruct (Nat.ltb_spec slot 10) as [Hlt|Hge]; cbn [negb]; try lia; eauto.
  destruct (attempt_conn (attempt env storage myPubkey key slot)) as [c|]; eauto.
  destruct (IH (S slot)) as (attempts & conn & ->); [lia|]. eauto.
Qed.

(** When no attempt from [slot] on settles to a connection, the loop makes
    one attempt on each slot up to 9 and ends with null. *)
Lemma connect_loop_none fuel :
  forall slot, 10 - slot <= fuel ->
  (forall s, slot <= s < 10 -> attempt_conn (attempt env storage myPubkey key s) = None) ->
  connect_loop fuel env storage myPubkey key slot =
  Some (map (attempt env storage myPubkey key) (seq slot (10 - slot)), None).
Proof.
  induction fuel as [|fuel IH]; intros slot Hfuel Hnone; cbn [connect_loop];
    destruct (Nat.ltb_spec slot 10) as [Hlt|Hge]; cbn [negb]; try lia.
  - replace (10 - slot) with 0 by lia. reflexivity.
  - rewrite Hnone by lia. rewrite (IH (S slot)); [|lia|intros; apply Hnone; lia].
    replace (10 - slot) with (S (10 - S slot)) by lia. reflexivity.
  - replace (10 - slot) with 0 by lia. reflexivity.
Qed.

(** What the loop ends with, it got from an attempt on a slot below 10; and
    no attempt hands a connection to the application. *)
Lemma connect_loop_found fuel :
  forall slot attempts conn,
  connect_loop fuel env storage myPubkey key slot = Some (attempts, conn) ->
  (forall c, conn = Some c ->
     exists s, slot <= s < 10 /\ attempt_conn (attempt env storage myPubkey key s) = Some c)
  /\ (forall c, ~ In (AddConnection c) (flat_map attempt_effects attempts)).
Proof.
  induction fuel as [|fuel IH]; intros slot attempts conn; cbn [connect_loop];
    destruct (Nat.ltb_spec slot 10) as [Hlt|Hge]; cbn [negb];
    try discriminate; try (intros [= <- <-]; split; [discriminate|auto]).
  destruct (attempt_conn (attempt env storage myPubkey key slot)) as [c0|] eqn:Hc0.
  - intros [= <- <-]. split.
    + intros c [= <-]. exists slot. split; [lia|assumption].
    + intros c. cbn. rewrite app_nil_r. apply attempt_no_add.
  - destruct (connect_loop fuel env storage myPubkey key (S slot))
      as [[attempts' conn']|] eqn:Hrest; [|discriminate].
    intros [= <- <-]. destruct (IH _ _ _ Hrest) as [Hfound Hadd]. split.
    + intros c Hc. destruct (Hfound c Hc) as (s & Hs & Hconn). exists s. split; [lia|assumption].
    + intros c. cbn. intros Hin. apply in_app_or in Hin as [Hin|Hin].
      * now apply attempt_no_add in Hin.
      * now apply Hadd in Hin.
Qed.

(** The first slot whose attempt settles to a connection ends the loop:
    the slots before it were tried and gave null, the slots after it are not
    tried. *)
Lemma connect_loop_first fuel s c :
  forall slot, slot <= s < 10 -> 10 - slot <= fuel ->
  (forall s', slot <= s' < s -> attempt_conn (attempt env storage myPubkey key s') = None) ->
  attempt_conn (attempt env storage myPubkey key s) = Some c ->
  connect_loop fuel env storage myPubkey key slot =
  Some (map (attempt env storage myPubkey key) (seq slot (S s - slot)), Some c).
Proof.
  induction fuel as [|fuel IH]; intros slot Hs Hfuel Hnone Hsome; cbn [connect_loop];
    destruct (Nat.ltb_spec slot 10) as [Hlt|Hge]; cbn [negb]; try lia.
  destruct (Nat.eq_dec slot s) as [->|Hne].
  - rewrite Hsome. replace (S s - s) with 1 by lia. reflexivity.
  - rewrite Hnone by lia.
    rewrite (IH (S slot)); [|lia|lia|intros; apply Hnone; lia|assumption].
    replace (S s - slot) with (S (S s - S slot)) by lia. reflexivity.
Qed.

End Attempts.

Section SessionClaims.
Context `{ext : Externals}.

Lemma inbound_action_add c a c' :
  In (AddConnection c') (inbound_action c a) -> a = OnVerify true /\ c' = c.
Proof.
  destruct a as [m|[|]|]; cbn; intros [He|[]]; try discriminate.
  injection He as ->. auto.
Qed.

Lemma inbound_event_add storage nonce key c ev c' :
  In (AddConnection c') (inbound_event storage nonce key c ev) ->
  c' = c /\
  exists data, ev = ConnData data /\
    In (OnVerify true) (on_data storage nonce key (claimed_key c) data).
Proof.
  destruct ev as [|data|]; cbn [inbound_event].
  - cbn. intros [He|[]]. discriminate.
  - rewrite in_flat_map. intros (a & Ha & Hadd).
    apply inbound_action_add in Hadd as [-> ->]. eauto.
  - contradiction.
Qed.

Lemma init_case_no_add env st key c :
  ~ In (AddConnection c) (effects_of (init_case env st key)).
Proof.
  unfold init_case.
  destruct (get_myDevicePubkeyAtom st key (generated env)) as [[devicePubkey|] st1];
    [|now cbn].
  destruct (init_loop devicePubkey (binds env) 0) as [probes status].
  assert (Hprobes : ~ In (AddConnection c) (flat_map (probe_effects devicePubkey) probes)).
  { intros Hin. apply probe_effects_shape in Hin as [[id Hid]|[ms Hms]]; discriminate. }
  destruct status as [peer| |slot]; cbn [effects_of]; try assumption;
    intros Hin; apply in_app_or in Hin as [Hin|Hin]; try contradiction;
    cbn in Hin; repeat (destruct Hin as [Hin|Hin]; [discriminate|]); contradiction.
Qed.

Lemma destroy_case_no_add st c : ~ In (AddConnection c) (snd (destroy_case st)).
Proof.
  unfold destroy_case. destruct (myPeerAtom st) as [peer|]; cbn; [|tauto].
  destruct (destroyed peer); cbn; [tauto|]. intros [He|[]]. discriminate.
Qed.

(** C1.  A connection is handed to the application ([connectionAtom]
    receives ['add']) only on a verdict [true] of the handshake of that same
    connection.  For a connection that came in, every hand-over follows a
    ['data'] event of that connection on which the handler called
    [onVerify(true)].  The promise of a connection attempt resolves to a
    connection only if a ['data'] event of that connection made the handler
    call [onVerify(true)].  Of the actions of [p2pAtom] only [connect] hands
    a connection over, and the connection is the one it opened to a slot
    below 10, on which a ['data'] event made the handler call
    [onVerify(true)]. *)
Theorem published_only_when_verified :
  (forall st nonce c evs c',
     In (AddConnection c') (on_connection st nonce c evs) ->
     c' = c /\
     exists peer key data,
       myPeerAtom st = Some peer /\
       In (EvConnection, ValidateInbound key) (listeners peer) /\
       In (ConnData data) evs /\
       In (OnVerify true) (on_data (localStorage st) nonce key (claimed_key c) data))
  /\
  (forall env storage myPubkey key slot c',
     attempt_conn (attempt env storage myPubkey key slot) = Some c' ->
     c' = {| conn_peer := pygmy_id key slot |} /\
     exists data,
       In (ConnData data) (map snd (events env slot)) /\
       In (OnVerify true) (on_data storage (getRandom env slot) myPubkey (Some key) data))
  /\
  (forall env st action c',
     In (AddConnection c') (effects_of (p2pAtom env st action)) ->
     exists key myPubkey slot data,
       action = connect key /\ userWalletAtom st = Some myPubkey /\ slot < 10 /\
       c' = {| conn_peer := pygmy_id key slot |} /\
       In (ConnData data) (map snd (events env slot)) /\
       In (OnVerify true)
          (on_data (localStorage st) (getRandom env slot) myPubkey (Some key) data)).
Proof.
  split; [|split].
  - intros st nonce c evs c'. unfold on_connection.
    destruct (myPeerAtom st) as [peer|]; [|contradiction].
    rewrite in_flat_map. intros ([ev l] & Hl & Hadd).
    destruct ev; try contradiction. destruct l as [| | |key]; try contradiction.
    apply in_flat_map in Hadd as (e & He & Hadd).
    apply inbound_event_add in Hadd as (-> & data & -> & Hv).
    split; [reflexivity|]. exists peer, key, data. auto.
  - intros env storage myPubkey key slot c'. apply attempt_verified.
  - intros env st action c'. destruct action as [key| |key|conn]; cbn [p2pAtom].
    + intros Hin. now apply init_case_no_add in Hin.
    + pose proof (destroy_case_no_add st c') as Hno.
      destruct (destroy_case st) as [st' effects]. cbn in *. contradiction.
    + unfold connect_case.
      destruct (myPeerAtom st) as [peer|]; [|contradiction].
      destruct (userWalletAtom st) as [myPubkey|]; [|contradiction].
      destruct (connect_loop 10 env (localStorage st) myPubkey key 0)
        as [[attempts conn]|] eqn:Hloop; [|contradiction].
      apply connect_loop_found in Hloop as [Hfound Hadd].
      destruct conn as [c|]; cbn [effects_of]; intros Hin.
      * apply in_app_or in Hin as [Hin|[Hc|[]]]; [now apply Hadd in Hin|].
        injection Hc as <-.
        destruct (Hfound c eq_refl) as (s & Hs & Hconn).
        apply attempt_verified in Hconn as (-> & data & Hdata & Hv).
        exists key, myPubkey, s, data. repeat split; auto. lia.
      * now apply Hadd in Hin.
    + contradiction.
Qed.

(** C3, as the code has it.  A [connect] issued with a stored peer and a
    wallet key (what the case asks for at lines 174-179), while no message
    arrives on any of the ten connections (nobody listens on the slots of
    the target), makes exactly ten attempts: [peer.connect] is called on
    the identifiers of the slots 0 to 9, in this order; each attempt settles
    within the 5000 ms of its timer, to null; the loop ends with [conn]
    null and [connect] returns at line 220, as on any other path: its
    promise resolves, no error is returned or raised, the atoms are as they
    were, and nothing was handed to the application. *)
Theorem connect_without_listener (env : Env) (st : State) (key myPubkey : string)
    (peer : Peer) :
  myPeerAtom st = Some peer ->
  userWalletAtom st = Some myPubkey ->
  (forall slot, slot < 10 ->
     forall e, In e (events env slot) -> forall data, snd e <> ConnData data) ->
  let attempts := map (attempt env (localStorage st) myPubkey key) (seq 0 10) in
  let effects := flat_map attempt_effects attempts in
  connect_loop 10 env (localStorage st) myPubkey key 0 = Some (attempts, None)
  /\ length attempts = 10
  /\ map attempt_slot attempts = seq 0 10
  /\ connects effects = map (pygmy_id key) (seq 0 10)
  /\ Forall (fun a => (attempt_settled a <= 5000)%N /\ attempt_conn a = None) attempts
  /\ connect_case env st key = Returned st effects
  /\ (forall c, ~ In (AddConnection c) effects).
Proof.
  intros Hpeer Hwallet Hsilent attempts effects.
  assert (Hnone : forall s, 0 <= s < 10 ->
            attempt_conn (attempt env (localStorage st) myPubkey key s) = None).
  { intros s Hs. apply attempt_silent. apply Hsilent. lia. }
  assert (Hloop : connect_loop 10 env (localStorage st) myPubkey key 0 = Some (attempts, None)).
  { now rewrite (connect_loop_none env (localStorage st) myPubkey key 10 0) by (lia || assumption). }
  repeat apply conj.
  - exact Hloop.
  - subst attempts. now rewrite length_map, length_seq.
  - subst attempts. rewrite map_map. erewrite map_ext; [apply map_id|].
    intros s. apply attempt_slot_eq.
  - subst effects attempts. unfold connects.
    generalize (seq 0 10). intros slots. induction slots as [|s slots IH]; [reflexivity|].
    cbn [map flat_map]. rewrite flat_map_app. fold (connects (attempt_effects
      (attempt env (localStorage st) myPubkey key s))).
    rewrite attempt_connects. cbn. now rewrite IH.
  - subst attempts. apply Forall_forall. intros a Ha. apply list_elem_of_In in Ha.
    apply in_map_iff in Ha as (s & <- & Hs). apply in_seq in Hs.
    split; [apply attempt_settled_le|apply Hnone; lia].
  - unfold connect_case. now rewrite Hpeer, Hwallet, Hloop.
  - apply (connect_loop_found env (localStorage st) myPubkey key 10 0 attempts None Hloop).
Qed.

(** X3.  The first slot that yields a verified connection wins: [connect] calls
    [peer.connect] on the slots up to that one and on no later slot, and the
    one thing it hands to the application, last of all, is the connection to
    that slot. *)
Theorem first_verified_slot_wins (env : Env) (st : State) (key myPubkey : string)
    (peer : Peer) (s : nat) (c : DataConnection) :
  myPeerAtom st = Some peer ->
  userWalletAtom st = Some myPubkey ->
  s < 10 ->
  (forall s', s' < s ->
     attempt_conn (attempt env (localStorage st) myPubkey key s') = None) ->
  attempt_conn (attempt env (localStorage st) myPubkey key s) = Some c ->
  let attempts := map (attempt env (localStorage st) myPubkey key) (seq 0 (S s)) in
  let effects := flat_map attempt_effects attempts in
  connect_case env st key = Returned st (effects ++ [AddConnection c])
  /\ c = {| conn_peer := pygmy_id key s |}
  /\ connects (effects ++ [AddConnection c]) = map (pygmy_id key) (seq 0 (S s))
  /\ (forall c', ~ In (AddConnection c') effects).
Proof.
  intros Hpeer Hwallet Hs Hnone Hsome attempts effects.
  assert (Hloop : connect_loop 10 env (localStorage st) myPubkey key 0
                  = Some (attempts, Some c)).
  { rewrite (connect_loop_first env (localStorage st) myPubkey key 10 s c 0);
      [|lia|lia|intros; apply Hnone; lia|assumption].
    now rewrite Nat.sub_0_r. }
  repeat apply conj.
  - unfold connect_case. now rewrite Hpeer, Hwallet, Hloop.
  - now apply attempt_verified in Hsome.
  - unfold connects. rewrite flat_map_app. cbn [flat_map]. rewrite app_nil_r.
    subst effects attempts. generalize (seq 0 (S s)). intros slots.
    induction slots as [|s' slots IH]; [reflexivity|].
    cbn [map flat_map]. rewrite flat_map_app.
    fold (connects (attempt_effects (attempt env (localStorage st) myPubkey key s'))).
    rewrite attempt_connects. cbn. now rewrite IH.
  - apply (connect_loop_found env (localStorage st) myPubkey key 10 0 attempts (Some c) Hloop).
Qed.

(** X4.  A connection that came in and whose signature check said [false]
    is closed, and is not handed to the application. *)
Theorem rejected_connection_is_closed (storage : gmap string string)
    (nonce key : string) (c : DataConnection) (data : JsData) :
  In (OnVerify false) (on_data storage nonce key (claimed_key c) data) ->
  inbound_event storage nonce key c (ConnData data) = [ConnClose c].
Proof.
  intros Hin. cbn [inbound_event].
  destruct (on_data_handled storage nonce key (claimed_key c) data)
    as [|?|? ? ?|m signature k pubkey result ? ? ? ? ?]; cbn in Hin;
    try (destruct Hin as [Hin|[]]; try discriminate Hin); try contradiction.
  injection Hin as ->. reflexivity.
Qed.

End SessionClaims.

(** ** The handshake end to end *)

Section RoundTrip.
Context `{ext : Externals}.


(** X1.  The reply the challenge block makes to a nonce is accepted by the
    verification block of the side that drew the nonce, when that side
    checks it against the device key of the replier: the replier signs the
    nonce it received, the other side verifies against the nonce it sent. *)
Lemma handshake_round_trip (storage : gmap string string)
    (myPubkey stored devicePubkey nonce other : string) (secretKey pubkey sig : Bytes)
    (anyone : option string) :
  storage !! storeId myPubkey = Some stored ->
  truthy (Some stored) = true ->
  ExchangeOk stored devicePubkey nonce secretKey pubkey sig ->
  on_data storage other myPubkey anyone (JObject (Some "challenge"%string) (Some nonce))
    = [Send {| msg_type := verification; message := bs58_encode sig |}]
  /\ forall storage' pubkey',
       on_data storage' nonce pubkey' (Some devicePubkey)
         (JObject (Some "verification"%string) (Some (bs58_encode sig))) = [OnVerify true].
Proof.
  intros Hstored Htruthy [Hdec Hacc Hsig Hcode Hne Hpk Hver]. split.
  - unfold on_data, try_data, on_challenge. cbn [String.eqb Ascii.eqb Bool.eqb].
    rewrite Hstored, Htruthy. cbn [negb default]; unfold id.
    rewrite Hdec. cbn [mbind Result_bind].
    rewrite Hacc. cbn [mbind Result_bind].
    now rewrite Hsig.
  - intros storage' pubkey'. unfold on_data, try_data, on_verification.
    cbn [String.eqb Ascii.eqb Bool.eqb].
    rewrite Hne. cbn [negb default]; unfold id.
    rewrite Hcode. cbn [mbind Result_bind].
    rewrite Hpk. cbn [mbind Result_bind].
    now rewrite Hver.
Qed.

End RoundTrip.

(** ** Runs on concrete inputs *)

Section Runs.
Import Demo.
#[local] Existing Instance Demo.externals.

(** A ['challenge'] with no device key stored, a ['verification'] with an
    empty message and a message of another type are dropped. *)
Lemma data_event_ignored_witness :
  on_data ∅ "n1" "alice" (Some "2kd"%string) (JObject (Some "challenge"%string) (Some "q7"%string)) = []
  /\ on_data (localStorage alice_online) "n1" "alice" (Some "2kd"%string)
       (JObject (Some "verification"%string) (Some ""%string)) = []
  /\ on_data (localStorage alice_online) "n1" "alice" (Some "2kd"%string)
       (JObject (Some "ping"%string) (Some "q7"%string)) = [].
Proof.
  split; [|split].
  - apply (proj2 (data_event_ignored ∅ "n1" "alice" (Some "2kd"%string)
                    (Some "challenge"%string) (Some "q7"%string))).
    right; right. split; reflexivity.
  - apply (proj2 (data_event_ignored (localStorage alice_online) "n1" "alice"
                    (Some "2kd"%string) (Some "verification"%string) (Some ""%string))).
    right; left. split; reflexivity.
  - apply (proj2 (data_event_ignored (localStorage alice_online) "n1" "alice"
                    (Some "2kd"%string) (Some "ping"%string) (Some "q7"%string))).
    left. split; discriminate.
Defined.

(** C10 as stated fails.  A ['data'] event may carry [null]: its [type] is
    neither ['challenge'] nor ['verification'], and the handler closes the
    connection. *)
Lemma null_payload_closes_the_channel :
  tag_of JNullish <> Some "challenge"%string
  /\ tag_of JNullish <> Some "verification"%string
  /\ on_data (localStorage alice_online) "n1" "alice" (Some "2kd"%string) JNullish = [Close]
  /\ on_connection alice_online "n1" from_bob [ConnData JNullish] = [ConnClose from_bob].
Proof. repeat split; try discriminate; vm_compute; reflexivity. Qed.




(** Both ways a connection is handed over, on the exchange with [dk2]: the
    hand-over is there, and with it the verdict it rests on. *)
Lemma published_only_when_verified_witness :
  (In (AddConnection from_bob) (on_connection alice_online "n1" from_bob bob_follows)
   /\ exists key data,
        In (ConnData data) bob_follows /\
        In (OnVerify true)
           (on_data (localStorage alice_online) "n1" key (claimed_key from_bob) data))
  /\ (In (AddConnection {| conn_peer := "pygmy_2kd_1" |})
         (effects_of (p2pAtom (env_of [] bob_on_slot_1) alice_online (connect "2kd")))
      /\ exists myPubkey slot data,
           In (ConnData data) (map snd (bob_on_slot_1 slot)) /\
           In (OnVerify true)
              (on_data (localStorage alice_online)
                 (getRandom (env_of [] bob_on_slot_1) slot) myPubkey (Some "2kd"%string) data)).
Proof.
  assert (Hin : In (AddConnection from_bob)
                   (on_connection alice_online "n1" from_bob bob_follows)) by in_list.
  assert (Hout : In (AddConnection {| conn_peer := "pygmy_2kd_1" |})
                    (effects_of (p2pAtom (env_of [] bob_on_slot_1) alice_online
                                   (connect "2kd")))) by in_list.
  split; (split; [assumption|]).
  - destruct (proj1 published_only_when_verified _ _ _ _ _ Hin)
      as (_ & peer & key & data & _ & _ & Hdata & Hv).
    exists key, data. auto.
  - destruct (proj2 (proj2 published_only_when_verified) _ _ _ _ Hout)
      as (key & myPubkey & slot & data & Hact & _ & _ & _ & Hdata & Hv).
    injection Hact as <-. exists myPubkey, slot, data. auto.
Defined.

Lemma nobody_sends (slot : nat) :
  forall e, In e (nobody slot) -> forall data, snd e <> ConnData data.
Proof.
  unfold nobody. destruct (Nat.even slot); [intros e []|].
  intros e [<-|[]] data. discriminate.
Qed.

(** [alice], listening, connects to a device nobody listens for. *)
Lemma connect_without_listener_witness :
  let attempts :=
    map (attempt (env_of [] nobody) (localStorage alice_online) "alice" "2kd") (seq 0 10) in
  connect_case (env_of [] nobody) alice_online "2kd"
    = Returned alice_online (flat_map attempt_effects attempts)
  /\ connects (flat_map attempt_effects attempts) = map (pygmy_id "2kd") (seq 0 10)
  /\ Forall (fun a => (attempt_settled a <= 5000)%N /\ attempt_conn a = None) attempts.
Proof.
  destruct (connect_without_listener (env_of [] nobody) alice_online "2kd" "alice"
              (install "alice" (newPeer "pygmy_1ks_2")) eq_refl eq_refl
              (fun slot _ => nobody_sends slot))
    as (_ & _ & _ & Hconnects & Hsettled & Hret & _).
  auto.
Defined.

(** C3 as stated fails.  [alice], listening, connects to a device nobody
    listens for: ten attempts are made and none gives a connection, and the
    promise of [connect] resolves, as it does when [connect] is issued with
    no stored peer and makes no attempt at all.  It does not reject, and
    the atoms are what they were: no error is returned and none is
    recorded. *)
Lemma not_found_is_no_error :
  (exists effects,
     p2pAtom (env_of [] nobody) alice_online (connect "2kd") = Returned alice_online effects
     /\ length (connects effects) = 10 /\ handed effects = [])
  /\ (forall st, p2pAtom (env_of [] nobody) alice_online (connect "2kd") <> Thrown st)
  /\ p2pAtom (env_of [] nobody) alice_offline (connect "2kd") = Returned alice_offline [].
Proof.
  assert (Hret : exists effects,
            p2pAtom (env_of [] nobody) alice_online (connect "2kd")
            = Returned alice_online effects
            /\ length (connects effects) = 10 /\ handed effects = []).
  { eexists. split; [vm_compute; reflexivity|]. split; vm_compute; reflexivity. }
  split; [exact Hret|split].
  - destruct Hret as (effects & -> & _). discriminate.
  - reflexivity.
Qed.

(** C4 as stated fails.  A transport that answers every bind with an error
    other than 'unavailable-id' keeps the loop on slot 0 for ever: there is
    no number of such errors after which the loop has left slot 0, or after
    which [init] has returned; after a thousand of them (more than 83
    minutes of waiting) the loop is about to probe slot 0 again. *)
Lemma backoff_retries_have_no_budget :
  ~ (exists budget, snd (init_loop "1ks" (repeat BindOtherError budget) 0) <> Awaiting 0)
  /\ ~ (exists budget st effects,
          init_case (env_of (repeat BindOtherError budget) silent) alice_offline "alice"
          = Returned st effects)
  /\ snd (init_loop "1ks" (repeat BindOtherError 1000) 0) = Awaiting 0.
Proof.
  split; [|split].
  - intros (budget & Hleft). apply Hleft. now rewrite init_loop_stuck by lia.
  - intros (budget & st & effects & Hret). unfold init_case in Hret.
    assert (Hkey : get_myDevicePubkeyAtom alice_offline "alice"
                     (generated (env_of (repeat BindOtherError budget) silent))
                   = (Ok "1ks"%string, alice_keyed))
      by (vm_compute; reflexivity).
    rewrite Hkey in Hret. cbn [binds env_of] in Hret.
    rewrite init_loop_stuck in Hret by lia. discriminate.
  - now rewrite init_loop_stuck by lia.
Qed.

(** Two errors of the other kind and then a bind: two waits of 5000 ms on
    slot 0, the third probe is on slot 0 too, and the loop ends. *)
Lemma other_error_retries_same_slot_witness :
  let answers := [BindOtherError; BindOtherError; BindOpen] in
  let probes := fst (init_loop "1ks" answers 0) in
  map probe_slot probes = [0; 0; 0]
  /\ (forall p q, probes !! 0 = Some p -> probes !! 1 = Some q ->
        probe_outcome p = BindOtherError ->
        probe_delay p = 5000%N /\ probe_slot q = probe_slot p)
  /\ snd (init_loop "1ks" answers 0) <> Awaiting 0.
Proof.
  intros answers probes.
  pose proof (other_error_retries_same_slot "1ks" answers) as (Hstep & _ & Hends).
  split; [reflexivity|split].
  - intros p q. apply (Hstep 0).
  - apply Hends. left. in_list.
Defined.

(** Slots 0 and 1 are taken and slot 2 is free: two probes that found their
    slot taken, with no wait, and the bind on slot 2.  The probe of slot 0
    is followed by the probe of slot 1, which took the second answer. *)
Lemma slots_probed_in_ascending_order_witness :
  let answers := [BindUnavailableId; BindUnavailableId; BindOpen] in
  let run := init_loop "1ks" answers 0 in
  let probes := fst run in
  map probe_slot probes = [0; 1; 2]
  /\ map probe_delay probes = [0; 0; 0]%N
  /\ taken_slots probes = seq 0 2
  /\ (forall p q, probes !! 0 = Some p -> probes !! 1 = Some q ->
        probe_outcome p = BindUnavailableId -> probe_slot p < probe_slot q)
  /\ (forall p, probes !! 0 = Some p -> goes_on answers run 0 1)
  /\ (forall p, probes !! 2 = Some p ->
        probes !! 3 = None /\ snd run = Bound (newPeer "pygmy_1ks_2")).
Proof.
  intros answers run probes.
  pose proof (slots_probed_in_ascending_order "1ks" answers)
    as (_ & _ & _ & Hstep & Hlater & Htaken).
  split; [reflexivity|split; [reflexivity|split; [|split; [|split]]]].
  - exact Htaken.
  - intros p q Hp Hq. apply (Hlater 0 1 p q); [lia|assumption|assumption].
  - intros p Hp. pose proof (Hstep 0 p Hp) as Hnext.
    injection Hp as <-. exact (proj2 Hnext).
  - intros p Hp. pose proof (Hstep 2 p Hp) as Hnext.
    injection Hp as <-. exact Hnext.
Defined.

(** All ten slots are taken: [alice] stays as she was. *)
Lemma init_exhausted_leaves_offline_witness :
  exists st' effects,
    init_case (env_of (repeat BindUnavailableId 10) silent) alice_offline "alice"
      = Returned st' effects
    /\ myPeerAtom st' = None
    /\ myOnlineStateAtom st' = myOnlineStateAtom alice_offline.
Proof.
  assert (Hkey : get_myDevicePubkeyAtom alice_offline "alice"
                   (generated (env_of (repeat BindUnavailableId 10) silent))
                 = (Ok "1ks"%string, alice_keyed))
    by (vm_compute; reflexivity).
  destruct (init_exhausted_leaves_offline
              (env_of (repeat BindUnavailableId 10) silent) alice_offline alice_keyed
              "alice" "1ks"
              (fst (init_loop "1ks" (repeat BindUnavailableId 10) 0))
              Hkey eq_refl)
    as (st' & effects & Hret & _ & Hnull & Honline & _).
  exists st', effects. auto.
Defined.

(** [alice], listening on slot 2, gets an ['error'] on her peer: the peer
    stays stored, nothing is destroyed and she still counts as online. *)
Lemma error_event_runs_no_destroy_witness :
  myOnlineStateAtom alice_online = online
  /\ p2pAtomValue (fst (on_error false alice_online)) = Some destroy
  /\ myPeerAtom (fst (on_error false alice_online)) = myPeerAtom alice_online
  /\ snd (on_error false alice_online) = []
  /\ myOnlineStateAtom (fst (on_error false alice_online)) = online
  /\ snd (destroy_case alice_online) = [PeerDestroy "pygmy_1ks_2"].
Proof.
  assert (Hkey : get_myDevicePubkeyAtom alice_offline "alice"
                   (generated (env_of [BindUnavailableId; BindUnavailableId; BindOpen] silent))
                 = (Ok "1ks"%string, alice_keyed))
    by (vm_compute; reflexivity).
  destruct (error_event_runs_no_destroy
              (env_of [BindUnavailableId; BindUnavailableId; BindOpen] silent)
              alice_offline alice_keyed "alice" "1ks"
              (fst (init_loop "1ks" [BindUnavailableId; BindUnavailableId; BindOpen] 0))
              (newPeer "pygmy_1ks_2") false Hkey eq_refl)
    as (st' & effects & Hret & Hpeer & Hon & _ & Hvalue & Hkept & Honline & Heffects & _).
  unfold alice_online. rewrite Hret.
  split; [exact Hon|]. split; [exact Hvalue|]. split.
  { rewrite Hkept, Hpeer. reflexivity. }
  split; [exact Heffects|]. split; [now rewrite Honline|].
  unfold destroy_case. rewrite Hpeer. reflexivity.
Defined.

(** The exchange of [alice] (device key [sk1], public [1ks]) with a side
    that drew the nonce [q7]. *)
Lemma handshake_round_trip_witness :
  on_data (localStorage alice_online) "n1" "alice" None
    (JObject (Some "challenge"%string) (Some "q7"%string))
    = [Send {| msg_type := verification; message := "sk1q7" |}]
  /\ on_data ∅ "q7" "bob" (Some "1ks"%string)
       (JObject (Some "verification"%string) (Some "sk1q7"%string)) = [OnVerify true].
Proof.
  destruct (handshake_round_trip (localStorage alice_online) "alice" "sk1" "1ks" "q7" "n1"
              (list_byte_of_string "sk1") (list_byte_of_string "1ks")
              (list_byte_of_string "sk1q7") None eq_refl eq_refl)
    as [Hreply Haccept].
  { constructor; reflexivity. }
  split; [exact Hreply|exact (Haccept ∅ "bob"%string)].
Defined.

(** Slots 0 and 1 are taken, slot 2 is free: three peers are created, the
    third is kept, and nothing is waited for. *)
Lemma first_free_slot_wins_witness :
  init_case (env_of [BindUnavailableId; BindUnavailableId; BindOpen] silent)
            alice_offline "alice"
  = Returned alice_online
      ([NewPeer "pygmy_1ks_0"; NewPeer "pygmy_1ks_1"; NewPeer "pygmy_1ks_2"]
         ++ install_effects "alice" (newPeer "pygmy_1ks_2")).
Proof.
  assert (Hkey : get_myDevicePubkeyAtom alice_offline "alice"
                   (generated (env_of [BindUnavailableId; BindUnavailableId; BindOpen] silent))
                 = (Ok "1ks"%string, alice_keyed))
    by (vm_compute; reflexivity).
  rewrite (first_free_slot_wins
             (env_of [BindUnavailableId; BindUnavailableId; BindOpen] silent)
             alice_offline alice_keyed "alice" "1ks" [] 2
             ltac:(lia) Hkey eq_refl).
  vm_compute. reflexivity.
Defined.

(** [alice] connects to the device [dk2], which answers on slot 1 only:
    slot 0 fails, slot 1 verifies, slots 2 to 9 are never tried. *)
Lemma first_verified_slot_wins_witness :
  connects (effects_of (connect_case (env_of [] bob_on_slot_1) alice_online "2kd"))
    = ["pygmy_2kd_0"; "pygmy_2kd_1"]%string
  /\ last (effects_of (connect_case (env_of [] bob_on_slot_1) alice_online "2kd"))
     = Some (AddConnection {| conn_peer := "pygmy_2kd_1" |}).
Proof.
  destruct (first_verified_slot_wins (env_of [] bob_on_slot_1) alice_online "2kd" "alice"
              (install "alice" (newPeer "pygmy_1ks_2")) 1 {| conn_peer := "pygmy_2kd_1" |}
              eq_refl eq_refl ltac:(lia))
    as (Hret & _ & Hconnects & _).
  - intros s' Hs'. assert (s' = 0) as -> by lia. vm_compute. reflexivity.
  - vm_compute. reflexivity.
  - rewrite Hret. cbn [effects_of]. split.
    + rewrite Hconnects. reflexivity.
    + apply last_snoc.
Defined.

(** The device [dk2] answers with its signature over another nonce: the
    check says [false] and the connection is closed. *)
Lemma rejected_connection_is_closed_witness :
  inbound_event (localStorage alice_online) "n1" "alice" from_bob
    (ConnData (JObject (Some "verification"%string) (Some "dk2n2"%string)))
  = [ConnClose from_bob].
Proof.
  apply rejected_connection_is_closed. in_list.
Defined.

End Runs.

(** ** Peer identifiers *)

Section Identifiers.

Lemma js_split_nonempty sep s : js_split sep s <> [].
Proof.
  destruct s as [|c s]; cbn; [discriminate|].
  destruct (Ascii.eqb c sep); [discriminate|].
  destruct (js_split sep s); discriminate.
Qed.

Lemma append_nil_l s : "" +:+ s = s.
Proof. reflexivity. Qed.

Lemma append_cons c a s : String c a +:+ s = String c (a +:+ s).
Proof. reflexivity. Qed.

(** Splitting what was joined with the separator gives the parts of both
    sides. *)
Lemma js_split_join sep a b :
  js_split sep (a +:+ String sep b) = js_split sep a ++ js_split sep b.
Proof.
  induction a as [|c a IH].
  - rewrite append_nil_l. cbn [js_split]. now rewrite Ascii.eqb_refl.
  - rewrite append_cons. cbn [js_split].
    destruct (Ascii.eqb c sep); [now rewrite IH|].
    rewrite IH. pose proof (js_split_nonempty sep a) as Hne.
    now destruct (js_split sep a).
Qed.

Lemma js_split_free sep s : free_of sep s = true -> js_split sep s = [s].
Proof.
  induction s as [|c s IH]; cbn; [reflexivity|].
  destruct (Ascii.eqb c sep); cbn; [discriminate|].
  intros Hfree. now rewrite IH.
Qed.

(** The parts of a peer identifier. *)
Lemma js_split_pygmy_id devicePubkey slot :
  js_split "_" (pygmy_id devicePubkey slot) =
  "pygmy"%string :: js_split "_" devicePubkey
    ++ js_split "_" (NilZero.string_of_uint (Nat.to_uint slot)).
Proof.
  unfold pygmy_id.
  change ("pygmy_" +:+ devicePubkey +:+ "_" +:+ NilZero.string_of_uint (Nat.to_uint slot))
    with ("pygmy" +:+ String "_" (devicePubkey +:+
            String "_" (NilZero.string_of_uint (Nat.to_uint slot)))).
  rewrite js_split_join, js_split_join. reflexivity.
Qed.

Lemma append_inj_r a b c : a +:+ b = a +:+ c -> b = c.
Proof.
  induction a as [|x a IH]; [now rewrite !append_nil_l|].
  rewrite !append_cons. intros [= Heq]. auto.
Qed.

Lemma to_uint_nonnil n : Nat.to_uint n <> Decimal.Nil.
Proof.
  intros Hnil. pose proof (DecimalNat.Unsigned.of_to n) as Hof.
  rewrite Hnil in Hof. cbn in Hof. subst n. discriminate.
Qed.

Lemma decimal_inj n n' :
  NilZero.string_of_uint (Nat.to_uint n) = NilZero.string_of_uint (Nat.to_uint n') -> n = n'.
Proof.
  intros Heq. apply DecimalNat.Unsigned.to_uint_inj.
  pose proof (NilZero.usu _ (to_uint_nonnil n)) as Hn.
  pose proof (NilZero.usu _ (to_uint_nonnil n')) as Hn'.
  rewrite Heq in Hn. rewrite Hn in Hn'. now injection Hn'.
Qed.

(** X5.  The key the responder takes from the identifier of the remote side,
    [connection.peer.split('_')[1]], is the device key the identifier was
    made of, whatever the slot, as long as the key has no underscore in it
    (a base58 key has none); in general it is what precedes the first
    underscore of the key. *)
Theorem claimed_key_of_pygmy_id (devicePubkey : string) (slot : nat) :
  claimed_key {| conn_peer := pygmy_id devicePubkey slot |}
    = js_split "_" devicePubkey !! 0
  /\ (free_of "_" devicePubkey = true ->
      claimed_key {| conn_peer := pygmy_id devicePubkey slot |} = Some devicePubkey).
Proof.
  unfold claimed_key. cbn [conn_peer]. rewrite js_split_pygmy_id.
  pose proof (js_split_nonempty "_" devicePubkey) as Hne. split.
  - now destruct (js_split "_" devicePubkey).
  - intros Hfree. now rewrite js_split_free.
Qed.

(** X6.  Identifiers made of keys without underscore differ as soon as the
    key or the slot differs: no two slots of a device, and no two devices,
    share an identifier. *)
Theorem pygmy_id_injective (k k' : string) (slot slot' : nat) :
  free_of "_" k = true -> free_of "_" k' = true ->
  k <> k' \/ slot <> slot' ->
  pygmy_id k slot <> pygmy_id k' slot'.
Proof.
  intros Hk Hk' Hdiff Heq.
  assert (Hkeys : k = k').
  { pose proof (js_split_pygmy_id k slot) as Hs.
    pose proof (js_split_pygmy_id k' slot') as Hs'.
    rewrite Heq, Hs' in Hs. rewrite (js_split_free _ _ Hk), (js_split_free _ _ Hk') in Hs.
    now injection Hs. }
  subst k'. destruct Hdiff as [Hdiff|Hdiff]; [now apply Hdiff|]. apply Hdiff.
  unfold pygmy_id in Heq.
  apply append_inj_r, append_inj_r, append_inj_r in Heq. now apply decimal_inj.
Qed.

End Identifiers.

(** ** The device key *)

Section DeviceKey.
Context `{ext : Externals}.

Implicit Types (storage : gmap string string) (pubkey : string) (fresh : Bytes).

Lemma truthy_Some_lookup storage k :
  truthy (storage !! k) = true ->
  exists stored, storage !! k = Some stored /\ truthy (Some stored) = true.
Proof. destruct (storage !! k) as [stored|]; [eauto|discriminate]. Qed.

(** What a read of the device key leaves in the storage. *)
Lemma myDevicePubkeyAtom_storage storage pubkey fresh devicePubkey storage' :
  myDevicePubkeyAtom storage pubkey fresh = Ok (devicePubkey, storage') ->
  (truthy (storage !! storeId pubkey) = true /\ storage' = storage)
  \/ (truthy (storage !! storeId pubkey) = false
      /\ storage' = <[storeId pubkey := bs58_encode fresh]> storage
      /\ devicePubkey = Keypair_publicKey_toBase58 fresh).
Proof.
  unfold myDevicePubkeyAtom.
  destruct (truthy (storage !! storeId pubkey)) eqn:Hstored.
  - destruct (bs58_decode _) as [decoded|]; cbn; [|discriminate].
    destruct (Keypair_fromSecretKey decoded) as [secretKey|]; cbn; [|discriminate].
    intros [= <- <-]. now left.
  - intros [= <- <-]. now right.
Qed.

(** The read function raises on a stored key the libraries refuse, and on
    nothing else. *)
Lemma myDevicePubkeyAtom_raises storage pubkey fresh :
  myDevicePubkeyAtom storage pubkey fresh = Throw <->
  exists stored,
    storage !! storeId pubkey = Some stored
    /\ truthy (Some stored) = true
    /\ (bs58_decode stored = Throw
        \/ exists decoded, bs58_decode stored = Ok decoded
                           /\ Keypair_fromSecretKey decoded = Throw).
Proof.
  unfold myDevicePubkeyAtom. split.
  - destruct (truthy (storage !! storeId pubkey)) eqn:Hstored; [|discriminate].
    destruct (truthy_Some_lookup _ _ Hstored) as (stored & Hlook & Htruthy).
    rewrite Hlook. cbn [default]; unfold id.
    destruct (bs58_decode stored) as [decoded|] eqn:Hdec; cbn [mbind Result_bind].
    + destruct (Keypair_fromSecretKey decoded) as [secretKey|] eqn:Hacc;
        cbn [mbind Result_bind]; [discriminate|].
      intros _. exists stored. eauto 10.
    + intros _. exists stored. eauto 10.
  - intros (stored & Hlook & Htruthy & Hbad). rewrite Hlook, Htruthy.
    cbn [default]; unfold id.
    destruct Hbad as [->|(decoded & -> & Hacc)]; cbn [mbind Result_bind];
      [reflexivity|]. now rewrite Hacc.
Qed.

(** A [get] that finds a result in the store gives it and changes nothing. *)
Lemma get_myDevicePubkeyAtom_kept (st : State) pubkey fresh (r : Result string) :
  deviceKeyCache st !! pubkey = Some r ->
  get_myDevicePubkeyAtom st pubkey fresh = (r, st).
Proof. intros Hkept. unfold get_myDevicePubkeyAtom. now rewrite Hkept. Qed.

(** After a [get] the store holds its result, and what it held for other
    identities, or for this one before, it still holds. *)
Lemma get_myDevicePubkeyAtom_cache (st : State) pubkey fresh :
  let r := fst (get_myDevicePubkeyAtom st pubkey fresh) in
  let st1 := snd (get_myDevicePubkeyAtom st pubkey fresh) in
  deviceKeyCache st1 !! pubkey = Some r
  /\ (forall k, k <> pubkey -> deviceKeyCache st1 !! k = deviceKeyCache st !! k)
  /\ (forall k kept, deviceKeyCache st !! k = Some kept -> deviceKeyCache st1 !! k = Some kept).
Proof.
  unfold get_myDevicePubkeyAtom.
  destruct (deviceKeyCache st !! pubkey) as [kept|] eqn:Hkept; cbn [fst snd].
  - auto.
  - assert (Hins : forall v : Result string,
              <[pubkey := v]> (deviceKeyCache st) !! pubkey = Some v
              /\ (forall k, k <> pubkey ->
                    <[pubkey := v]> (deviceKeyCache st) !! k = deviceKeyCache st !! k)
              /\ (forall k kept, deviceKeyCache st !! k = Some kept ->
                    <[pubkey := v]> (deviceKeyCache st) !! k = Some kept)).
    { intros v. split; [apply lookup_insert_eq|]. split.
      - intros k Hk. now apply lookup_insert_ne.
      - intros k kept Hk. destruct (decide (k = pubkey)) as [->|Hne]; [congruence|].
        now rewrite lookup_insert_ne. }
    destruct (myDevicePubkeyAtom _ _ _) as [[devicePubkey storage]|]; cbn; apply Hins.
Qed.

(** A [get] writes the storage at the entry of its identity only, and only
    when the store held no result. *)
Lemma get_myDevicePubkeyAtom_storage (st : State) pubkey fresh :
  let st1 := snd (get_myDevicePubkeyAtom st pubkey fresh) in
  (forall k, k <> storeId pubkey -> localStorage st1 !! k = localStorage st !! k)
  /\ (is_Some (deviceKeyCache st !! pubkey) -> st1 = st).
Proof.
  unfold get_myDevicePubkeyAtom.
  destruct (deviceKeyCache st !! pubkey) as [kept|] eqn:Hkept; cbn [snd].
  - auto.
  - split; [|intros [kept Hsome]; discriminate].
    destruct (myDevicePubkeyAtom _ _ _) as [[devicePubkey storage]|] eqn:Hread;
      cbn; [|reflexivity].
    intros k Hk.
    destruct (myDevicePubkeyAtom_storage _ _ _ _ _ Hread) as [[_ ->]|(_ & -> & _)];
      [reflexivity|now rewrite lookup_insert_ne].
Qed.

(** The storage and the store's device keys after an [init] are those after
    its [get]. *)
Lemma init_case_store (env : Env) (st : State) (key : string) :
  let st1 := snd (get_myDevicePubkeyAtom st key (generated env)) in
  localStorage (state_of (init_case env st key)) = localStorage st1
  /\ deviceKeyCache (state_of (init_case env st key)) = deviceKeyCache st1.
Proof.
  unfold init_case.
  destruct (get_myDevicePubkeyAtom st key (generated env)) as [[devicePubkey|] st1];
    cbn [snd]; [|now split].
  destruct (init_loop devicePubkey (binds env) 0) as [probes [peer| |slot]]; now split.
Qed.

(** Whatever an action of [p2pAtom] ends in, every result the store held
    for a device key it still holds.  An [init] leaves a result for its
    identity and touches that of no other; when the store held one already,
    the storage is as it was, and [init] raises exactly when the result
    held is a raise.  The other actions leave the device keys of the store
    alone. *)
Lemma p2pAtom_device_keys (env : Env) (st : State) (action : P2pAtomAction) :
  let st' := state_of (p2pAtom env st action) in
  (forall k kept, deviceKeyCache st !! k = Some kept -> deviceKeyCache st' !! k = Some kept)
  /\ (forall key, action = init key ->
        is_Some (deviceKeyCache st' !! key)
        /\ forall k, k <> key -> deviceKeyCache st' !! k = deviceKeyCache st !! k)
  /\ (forall key kept, action = init key -> deviceKeyCache st !! key = Some kept ->
        localStorage st' = localStorage st
        /\ deviceKeyCache st' = deviceKeyCache st
        /\ (kept = Throw <-> p2pAtom env st action = Thrown st))
  /\ ((forall key, action <> init key) -> deviceKeyCache st' = deviceKeyCache st).
Proof.
  cbv zeta. destruct action as [key| |key|conn]; cbn [p2pAtom].
  - destruct (init_case_store env st key) as [Hstorage Hcache].
    destruct (get_myDevicePubkeyAtom_cache st key (generated env))
      as (Hhere & Hothers & Hkept).
    rewrite Hcache. repeat apply conj.
    + exact Hkept.
    + intros key' [= <-]. split; [eauto|exact Hothers].
    + intros key' kept [= <-] Hheld. rewrite Hstorage.
      unfold init_case.
      rewrite (get_myDevicePubkeyAtom_kept st key (generated env) kept Hheld).
      cbn [snd]. repeat split; try discriminate.
      * now intros ->.
      * destruct kept as [devicePubkey|]; [|reflexivity].
        destruct (init_loop devicePubkey (binds env) 0) as [probes [peer| |slot]];
          discriminate.
    + intros Hno. now destruct (Hno key).
  - unfold destroy_case. destruct (myPeerAtom st) as [peer|]; cbn [state_of];
      repeat split; auto; discriminate.
  - assert (Hst : state_of (connect_case env st key) = st).
    { unfold connect_case.
      destruct (myPeerAtom st); [destruct (userWalletAtom st)|];
        try (destruct (connect_loop _ _ _ _ _ _) as [[attempts [c|]]|]); reflexivity. }
    rewrite Hst. repeat split; auto; discriminate.
  - cbn [state_of]. repeat split; auto; discriminate.
Qed.

(** An ['error'] event leaves the device keys of the store alone. *)
Lemma on_error_device_keys (fatal : bool) (st : State) :
  deviceKeyCache (fst (on_error fatal st)) = deviceKeyCache st.
Proof.
  unfold on_error. destruct (myPeerAtom st) as [peer|]; [|reflexivity].
  change (deviceKeyCache st)
    with (deviceKeyCache
            (fst (set_myPeerAtom (Some (transport_destroys fatal peer)) st,
                  @nil Effect))).
  generalize (set_myPeerAtom (Some (transport_destroys fatal peer)) st, @nil Effect).
  induction (listeners peer) as [|[ev l] ls IH]; intros acc; cbn [fold_left];
    [reflexivity|].
  rewrite IH. destruct ev; try reflexivity. now destruct l.
Qed.

(** No step changes a result the store holds. *)
Lemma steps_device_keys (steps : list Step) :
  forall st k kept,
  deviceKeyCache st !! k = Some kept ->
  deviceKeyCache (fold_left step steps st) !! k = Some kept.
Proof.
  induction steps as [|s steps IH]; intros st k kept Hkept; cbn [fold_left];
    [exact Hkept|].
  apply IH. destruct s as [env action|fatal|storage]; cbn [step].
  - now apply (proj1 (p2pAtom_device_keys env st action)).
  - now rewrite on_error_device_keys.
  - exact Hkept.
Qed.

(** A loop that waits, waits on a slot below 10. *)
Lemma init_loop_awaiting (devicePubkey : string) (answers : list BindOutcome) :
  forall slot s, snd (init_loop devicePubkey answers slot) = Awaiting s -> s < 10.
Proof.
  induction answers as [|o answers IH]; intros slot s;
    destruct (Nat.lt_ge_cases slot 10) as [Hlt|Hge];
    try (rewrite init_loop_done by assumption; discriminate).
  - rewrite init_loop_nil by assumption. now intros [= <-].
  - destruct o.
    + rewrite init_loop_open by assumption. discriminate.
    + rewrite init_loop_taken by assumption. apply IH.
    + rewrite init_loop_retry by assumption. apply IH.
Qed.

(** The peers an [init] creates are peers of the device key its [get]
    gave, on slots below 10. *)
Lemma init_case_peers (env : Env) (st : State) (key devicePubkey id : string) :
  fst (get_myDevicePubkeyAtom st key (generated env)) = Ok devicePubkey ->
  In (NewPeer id) (effects_of (init_case env st key)) ->
  exists slot, slot < 10 /\ id = pygmy_id devicePubkey slot.
Proof.
  unfold init_case.
  destruct (get_myDevicePubkeyAtom st key (generated env)) as [r st1]. cbn [fst].
  intros ->.
  pose proof (init_loop_run devicePubkey (binds env) 0) as Hrun.
  pose proof (init_loop_awaiting devicePubkey (binds env) 0) as Hwait.
  destruct (init_loop devicePubkey (binds env) 0) as [probes status].
  cbn [fst snd] in Hrun, Hwait.
  assert (Hprobes : In (NewPeer id) (flat_map (probe_effects devicePubkey) probes) ->
                    exists slot, slot < 10 /\ id = pygmy_id devicePubkey slot).
  { rewrite in_flat_map. intros (p & Hp & Hin).
    pose proof (Run_lower _ _ Hrun p Hp) as Hslot. unfold probe_effects in Hin.
    destruct Hin as [[= <-]|Hin]; [exists (probe_slot p); split; [lia|reflexivity]|].
    destruct (0 <? probe_delay p)%N; [|contradiction].
    destruct Hin as [Hin|[]]. discriminate. }
  destruct status as [peer| |slot]; cbn [effects_of]; try exact Hprobes;
    intros Hin; apply in_app_or in Hin as [Hin|Hin]; try (now apply Hprobes).
  - cbn in Hin. repeat (destruct Hin as [Hin|Hin]; [discriminate|]). contradiction.
  - destruct Hin as [[= <-]|[]]. exists slot. split; [now apply (Hwait slot)|reflexivity].
Qed.

(** X7.  The store reads the device key of an identity once, and what it
    read stays, whatever happens next: actions of [p2pAtom], ['error']
    events on the stored peer, and changes of the storage from outside
    (its being cleared, or the key replaced).  After any of these the
    store still holds the result it held, and an [init] for the identity
    reads, generates and stores no key: the storage is as it was.  When the
    result is a device key, [init] does not raise and the peers it creates
    are peers of that device key, on slots below 10; when it is a raise,
    [init] raises. *)
Theorem device_key_is_read_once (steps : list Step) (st : State) (key : string)
    (kept : Result string) :
  deviceKeyCache st !! key = Some kept ->
  let st' := fold_left step steps st in
  deviceKeyCache st' !! key = Some kept
  /\ forall env,
       localStorage (state_of (p2pAtom env st' (init key))) = localStorage st'
       /\ deviceKeyCache (state_of (p2pAtom env st' (init key))) = deviceKeyCache st'
       /\ match kept with
          | Throw => p2pAtom env st' (init key) = Thrown st'
          | Ok devicePubkey =>
              (forall st'', p2pAtom env st' (init key) <> Thrown st'')
              /\ forall id, In (NewPeer id) (effects_of (p2pAtom env st' (init key))) ->
                   exists slot, slot < 10 /\ id = pygmy_id devicePubkey slot
          end.
Proof.
  intros Hkept st'. pose proof (steps_device_keys steps st key kept Hkept) as Hkept'.
  fold st' in Hkept'. split; [exact Hkept'|]. intros env.
  destruct (p2pAtom_device_keys env st' (init key)) as (_ & _ & Hhit & _).
  destruct (Hhit key kept eq_refl Hkept') as (Hstorage & Hcache & Hraise).
  split; [exact Hstorage|]. split; [exact Hcache|].
  destruct kept as [devicePubkey|].
  - split.
    + intros st'' Hthrown.
      assert (Hsame : st'' = st').
      { rewrite Hthrown in Hstorage, Hcache. cbn [state_of] in *.
        cbn [p2pAtom] in Hthrown. unfold init_case in Hthrown.
        rewrite (get_myDevicePubkeyAtom_kept st' key (generated env) _ Hkept') in Hthrown.
        destruct (init_loop devicePubkey (binds env) 0) as [probes [peer| |slot]];
          discriminate. }
      subst st''. apply Hraise in Hthrown. discriminate.
    + intros id. cbn [p2pAtom]. apply init_case_peers.
      now rewrite (get_myDevicePubkeyAtom_kept st' key (generated env) _ Hkept').
  - now apply Hraise.
Qed.

(** X8.  The device key is made once.  When the libraries take back the key
    they generated (its coding is not empty and decodes to it, and it is
    accepted as a secret key), a read that found no key and created one is
    followed by reads that give the same device key and leave the storage
    alone, whatever key they would have generated. *)
Theorem device_key_is_stable storage pubkey fresh fresh' devicePubkey storage' :
  truthy (storage !! storeId pubkey) = false ->
  truthy (Some (bs58_encode fresh)) = true ->
  bs58_decode (bs58_encode fresh) = Ok fresh ->
  Keypair_fromSecretKey fresh = Ok fresh ->
  myDevicePubkeyAtom storage pubkey fresh = Ok (devicePubkey, storage') ->
  myDevicePubkeyAtom storage' pubkey fresh' = Ok (devicePubkey, storage').
Proof.
  intros Hnone Htruthy Hdecode Haccept. unfold myDevicePubkeyAtom at 1.
  rewrite Hnone. intros [= <- <-]. unfold myDevicePubkeyAtom.
  rewrite lookup_insert_eq, Htruthy. cbn [default]; unfold id.
  rewrite Hdecode. cbn [mbind Result_bind].
  rewrite Haccept. reflexivity.
Qed.

(** With a device key stored, a challenge is answered or the connection is
    closed; it is not dropped. *)
Lemma on_data_challenge_with_key storage nonce myPubkey target m :
  truthy (storage !! storeId myPubkey) = true ->
  on_data storage nonce myPubkey target (JObject (Some "challenge"%string) m) <> [].
Proof.
  intros Hkey. unfold on_data, try_data, on_challenge.
  cbn [String.eqb Ascii.eqb Bool.eqb]. rewrite Hkey. cbn [negb].
  destruct (bs58_decode _) as [decoded|]; cbn [mbind Result_bind]; [|discriminate].
  destruct (Keypair_fromSecretKey decoded) as [secretKey|]; cbn [mbind Result_bind];
    [|discriminate].
  destruct (nacl_sign_detached _ secretKey) as [sig|]; cbn [mbind Result_bind];
    discriminate.
Qed.

(** X9.  The first [init] for an identity in a store (the store holds no
    result for its device key) that does not raise leaves a device key
    stored (the coding of a generated key is not empty), so a ['challenge']
    for that identity is not dropped for want of a key right after it: it
    is answered, or the connection is closed.  An [init] that finds a result
    in the store leaves the storage as it is: when the storage has lost the
    key, [init] goes on to bind a peer all the same, and a ['challenge'] is
    dropped. *)
Theorem only_first_init_provides_device_key (env : Env) (st st' : State) (key : string)
    (effects : list Effect) :
  truthy (Some (bs58_encode (generated env))) = true ->
  init_case env st key = Returned st' effects \/ init_case env st key = Pending st' effects ->
  (deviceKeyCache st !! key = None ->
     truthy (localStorage st' !! storeId key) = true
     /\ forall nonce target m,
          on_data (localStorage st') nonce key target
            (JObject (Some "challenge"%string) m) <> [])
  /\ (is_Some (deviceKeyCache st !! key) ->
        localStorage st' = localStorage st
        /\ (truthy (localStorage st !! storeId key) = false ->
            forall nonce target m,
              on_data (localStorage st') nonce key target
                (JObject (Some "challenge"%string) m) = [])).
Proof.
  intros Htruthy Hinit.
  assert (Hst : localStorage st'
                = localStorage (snd (get_myDevicePubkeyAtom st key (generated env)))
                /\ exists devicePubkey,
                     fst (get_myDevicePubkeyAtom st key (generated env)) = Ok devicePubkey).
  { destruct (init_case_store env st key) as [Hstorage _].
    unfold init_case in Hinit, Hstorage.
    destruct (get_myDevicePubkeyAtom st key (generated env)) as [[devicePubkey|] st1];
      [|destruct Hinit; discriminate].
    split; [|cbn; eauto].
    destruct Hinit as [Hinit|Hinit]; rewrite Hinit in Hstorage; exact Hstorage. }
  destruct Hst as [Hst (devicePubkey & Hok)]. split.
  - intros Hmiss.
    assert (Hkey : truthy (localStorage st' !! storeId key) = true).
    { rewrite Hst. unfold get_myDevicePubkeyAtom in Hok |- *. rewrite Hmiss in Hok |- *.
      destruct (myDevicePubkeyAtom (localStorage st) key (generated env))
        as [[devicePubkey' storage]|] eqn:Hread; [|discriminate]. cbn.
      destruct (myDevicePubkeyAtom_storage _ _ _ _ _ Hread) as [[Hstored ->]|(_ & -> & _)];
        [assumption|now rewrite lookup_insert_eq]. }
    split; [exact Hkey|]. intros nonce target m. now apply on_data_challenge_with_key.
  - intros Hheld.
    rewrite (proj2 (get_myDevicePubkeyAtom_storage st key (generated env)) Hheld) in Hst.
    split; [exact Hst|]. intros Hnone nonce target m. rewrite Hst.
    unfold on_data, try_data. cbn [String.eqb Ascii.eqb Bool.eqb].
    now rewrite on_challenge_no_key.
Qed.

(** X10.  The one way an action of [p2pAtom] raises (the calls on the
    transport set apart) is an [init] for which the store holds a raise, or
    for which it holds nothing and the storage has a device key the
    libraries refuse (it does not decode, or it is not a secret key);
    [connect], [destroy] and [add_connection] never raise.  The raise is
    kept: after it, every [init] for that identity raises again, whatever
    the storage holds by then. *)
Theorem p2pAtom_raises_only_on_refused_key (env : Env) (st : State)
    (action : P2pAtomAction) :
  ((exists st', p2pAtom env st action = Thrown st') <->
   exists key,
     action = init key
     /\ (deviceKeyCache st !! key = Some Throw
         \/ (deviceKeyCache st !! key = None
             /\ exists stored,
                  localStorage st !! storeId key = Some stored
                  /\ truthy (Some stored) = true
                  /\ (bs58_decode stored = Throw
                      \/ exists decoded, bs58_decode stored = Ok decoded
                                         /\ Keypair_fromSecretKey decoded = Throw))))
  /\ (forall st' env' storage,
        p2pAtom env st action = Thrown st' ->
        p2pAtom env' (set_localStorage storage st') action
        = Thrown (set_localStorage storage st')).
Proof.
  split; [split|].
  - intros [st' Hthrown]. destruct action as [key| |key|conn]; cbn [p2pAtom] in Hthrown.
    + exists key. split; [reflexivity|].
      unfold init_case, get_myDevicePubkeyAtom in Hthrown.
      destruct (deviceKeyCache st !! key) as [[devicePubkey|]|] eqn:Hkept.
      * destruct (init_loop _ _ _) as [probes [peer| |slot]]; discriminate.
      * now left.
      * right. split; [reflexivity|].
        destruct (myDevicePubkeyAtom (localStorage st) key (generated env))
          as [[devicePubkey storage]|] eqn:Hread.
        -- destruct (init_loop _ _ _) as [probes [peer| |slot]]; discriminate.
        -- now apply myDevicePubkeyAtom_raises in Hread.
    + destruct (destroy_case st). discriminate.
    + unfold connect_case in Hthrown. destruct (myPeerAtom st); [|discriminate].
      destruct (userWalletAtom st); [|discriminate].
      destruct (connect_loop _ _ _ _ _ _) as [[attempts [c|]]|]; discriminate.
    + discriminate.
  - intros (key & -> & [Hkept|[Hmiss Hbad]]); cbn [p2pAtom];
      unfold init_case, get_myDevicePubkeyAtom.
    + rewrite Hkept. eauto.
    + rewrite Hmiss.
      rewrite (proj2 (myDevicePubkeyAtom_raises _ key (generated env)) Hbad). eauto.
  - intros st' env' storage Hthrown.
    destruct action as [key| |key|conn]; cbn [p2pAtom] in Hthrown |- *.
    + assert (Hkept : deviceKeyCache st' !! key = Some Throw).
      { unfold init_case, get_myDevicePubkeyAtom in Hthrown.
        destruct (deviceKeyCache st !! key) as [[devicePubkey|]|] eqn:Hkept.
        - destruct (init_loop _ _ _) as [probes [peer| |slot]]; discriminate.
        - now injection Hthrown as <-.
        - destruct (myDevicePubkeyAtom (localStorage st) key (generated env))
            as [[devicePubkey storage']|].
          + destruct (init_loop _ _ _) as [probes [peer| |slot]]; discriminate.
          + injection Hthrown as <-. cbn. apply lookup_insert_eq. }
      unfold init_case.
      now rewrite (get_myDevicePubkeyAtom_kept _ key (generated env') Throw) by exact Hkept.
    + destruct (destroy_case st). discriminate.
    + unfold connect_case in Hthrown. destruct (myPeerAtom st); [|discriminate].
      destruct (userWalletAtom st); [|discriminate].
      destruct (connect_loop _ _ _ _ _ _) as [[attempts [c|]]|]; discriminate.
    + discriminate.
Qed.

End DeviceKey.

(** ** The connect loop as a whole *)

Section ConnectLoop.
Context `{ext : Externals}.
Variables (env : Env) (storage : gmap string string) (myPubkey key : string).

Lemma total_settled_app (a b : list Effect) :
  total_settled (a ++ b) = (total_settled a + total_settled b)%N.
Proof.
  unfold total_settled. induction a as [|e a IH]; cbn [app fold_right]; [reflexivity|].
  destruct e; rewrite ?IH; lia.
Qed.

Lemma handed_app (a b : list Effect) : handed (a ++ b) = handed a ++ handed b.
Proof. unfold handed. apply flat_map_app. Qed.

Lemma connects_app (a b : list Effect) : connects (a ++ b) = connects a ++ connects b.
Proof. unfold connects. apply flat_map_app. Qed.

Lemma on_conn_quiet (c : DataConnection) (effects : list Effect) :
  Forall (on_conn c) effects -> total_settled effects = 0%N /\ handed effects = [].
Proof.
  induction 1 as [|e effects [[m ->]| ->] _ [IHs IHh]]; cbn; auto.
Qed.

Lemma attempt_total_settled slot :
  total_settled (attempt_effects (attempt env storage myPubkey key slot))
  = attempt_settled (attempt env storage myPubkey key slot).
Proof.
  destruct (attempt_effects_shape env storage myPubkey key slot)
    as (effects & late & -> & Hfx & Hlate).
  change (PeerConnect (pygmy_id key slot) :: effects
            ++ [Settled (attempt_settled (attempt env storage myPubkey key slot))] ++ late)
    with ([PeerConnect (pygmy_id key slot)] ++ effects
            ++ [Settled (attempt_settled (attempt env storage myPubkey key slot))] ++ late).
  rewrite !total_settled_app.
  destruct (on_conn_quiet _ _ Hfx) as [-> _]. destruct (on_conn_quiet _ _ Hlate) as [-> _].
  cbn. lia.
Qed.

Lemma attempt_handed slot :
  handed (attempt_effects (attempt env storage myPubkey key slot)) = [].
Proof.
  destruct (attempt_effects_shape env storage myPubkey key slot)
    as (effects & late & -> & Hfx & Hlate).
  change (PeerConnect (pygmy_id key slot) :: effects
            ++ [Settled (attempt_settled (attempt env storage myPubkey key slot))] ++ late)
    with ([PeerConnect (pygmy_id key slot)] ++ effects
            ++ [Settled (attempt_settled (attempt env storage myPubkey key slot))] ++ late).
  rewrite !handed_app. destruct (on_conn_quiet _ _ Hfx) as [_ ->].
  now destruct (on_conn_quiet _ _ Hlate) as [_ ->].
Qed.

(** What a list of attempts adds up to. *)
Lemma attempts_summary (slots : list nat) :
  let effects := flat_map attempt_effects (map (attempt env storage myPubkey key) slots) in
  connects effects = map (pygmy_id key) slots
  /\ handed effects = []
  /\ (total_settled effects <= 5000 * N.of_nat (length slots))%N.
Proof.
  cbv zeta. induction slots as [|s slots (IHc & IHh & IHt)]; [cbn; repeat split; lia|].
  cbn [map flat_map]. rewrite connects_app, handed_app, total_settled_app.
  rewrite attempt_connects, attempt_handed, attempt_total_settled, IHc, IHh.
  repeat split. pose proof (attempt_settled_le env storage myPubkey key s).
  cbn [length]. lia.
Qed.

(** The attempts of the loop are one per slot, from the slot of the entry
    on, and a connection it ends with is that of its last attempt. *)
Lemma connect_loop_shape fuel :
  forall slot attempts conn,
  slot <= 10 ->
  connect_loop fuel env storage myPubkey key slot = Some (attempts, conn) ->
  attempts = map (attempt env storage myPubkey key) (seq slot (length attempts))
  /\ slot + length attempts <= 10
  /\ (forall c, conn = Some c ->
        exists n, length attempts = S n /\ c = {| conn_peer := pygmy_id key (slot + n) |}).
Proof.
  induction fuel as [|fuel IH]; intros slot attempts conn Hslot; cbn [connect_loop];
    destruct (Nat.ltb_spec slot 10) as [Hlt|Hge]; cbn [negb]; try discriminate;
    try (intros [= <- <-]; cbn; repeat split; (lia || discriminate)).
  destruct (attempt_conn (attempt env storage myPubkey key slot)) as [c0|] eqn:Hc0.
  - intros [= <- <-]. cbn. repeat split; [lia|].
    intros c [= <-]. exists 0. split; [reflexivity|].
    rewrite Nat.add_0_r. now apply attempt_verified in Hc0.
  - destruct (connect_loop fuel env storage myPubkey key (S slot))
      as [[attempts' conn']|] eqn:Hrest; [|discriminate].
    intros [= <- <-].
    destruct (IH (S slot) attempts' conn' ltac:(lia) Hrest) as (Hmap & Hlen & Hconn).
    cbn [length seq map]. repeat split.
    + now rewrite <- Hmap.
    + lia.
    + intros c Hc. destruct (Hconn c Hc) as (n & Hn & ->).
      exists (S n). split; [now rewrite Hn|]. now rewrite Nat.add_succ_r.
Qed.

End ConnectLoop.

Section ConnectClaims.
Context `{ext : Externals}.

(** X11.  [connect] always returns, and leaves every atom as it was.  It
    calls [peer.connect] on the slots 0, 1, ... in order, on ten slots at
    most, and on none without a stored peer or without a wallet key.  The
    time it waits on its attempts is at most 5000 ms for each.  It hands
    over one connection at most: the one to the last slot it tried, as the
    last thing it does. *)
Theorem connect_always_returns (env : Env) (st : State) (key : string) :
  exists effects n,
    connect_case env st key = Returned st effects
    /\ n <= 10
    /\ connects effects = map (pygmy_id key) (seq 0 n)
    /\ (total_settled effects <= 5000 * N.of_nat n)%N
    /\ (myPeerAtom st = None \/ userWalletAtom st = None -> effects = [])
    /\ (handed effects = []
        \/ exists s, n = S s
             /\ handed effects = [{| conn_peer := pygmy_id key s |}]
             /\ last effects = Some (AddConnection {| conn_peer := pygmy_id key s |})).
Proof.
  unfold connect_case.
  destruct (myPeerAtom st) as [peer|];
    [|exists [], 0; cbn; repeat split; (lia || auto)].
  destruct (userWalletAtom st) as [myPubkey|];
    [|exists [], 0; cbn; repeat split; (lia || auto)].
  destruct (connect_loop_total env (localStorage st) myPubkey key 10 0 ltac:(lia))
    as (attempts & conn & Hloop).
  rewrite Hloop.
  destruct (connect_loop_shape env (localStorage st) myPubkey key 10 0 attempts conn
              ltac:(lia) Hloop) as (Hmap & Hlen & Hconn).
  destruct (attempts_summary env (localStorage st) myPubkey key (seq 0 (length attempts)))
    as (Hc & Hh & Ht).
  rewrite <- Hmap, length_seq in *.
  destruct conn as [c|].
  - destruct (Hconn c eq_refl) as (n & Hn & ->). cbn [Nat.add] in *.
    eexists _, (length attempts). split; [reflexivity|].
    rewrite connects_app, handed_app, total_settled_app, Hc, Hh. cbn.
    rewrite app_nil_r. repeat split; try lia.
    + intros [H|H]; discriminate.
    + right. exists n. split; [assumption|]. split; [reflexivity|apply last_snoc].
  - eexists _, (length attempts). split; [reflexivity|].
    repeat split; auto; try lia. intros [H|H]; discriminate.
Qed.


End ConnectClaims.

(** ** What [init] binds and what the actions leave alone *)

Section InitMore.
Context `{ext : Externals}.

Lemma total_backoff_app (a b : list Effect) :
  total_backoff (a ++ b) = (total_backoff a + total_backoff b)%N.
Proof.
  unfold total_backoff. induction a as [|e a IH]; cbn [app fold_right]; [reflexivity|].
  destruct e; rewrite ?IH; lia.
Qed.

Lemma total_backoff_probe devicePubkey (p : Probe) :
  total_backoff (probe_effects devicePubkey p) = probe_delay p.
Proof.
  unfold probe_effects, total_backoff. cbn [fold_right].
  destruct (N.ltb_spec 0 (probe_delay p)); cbn [fold_right]; lia.
Qed.

(** A run that binds: the slot is the number of slots found taken on the
    way, the waits are one of 5000 ms for each other error, and the answers
    were used up to the first ['open']. *)
Lemma init_loop_bound_count devicePubkey answers :
  forall slot probes peer,
  init_loop devicePubkey answers slot = (probes, Bound peer) ->
  peer = newPeer (pygmy_id devicePubkey (slot + length (taken_slots probes)))
  /\ total_backoff (flat_map (probe_effects devicePubkey) probes)
     = (5000 * N.of_nat (length (List.filter (fun p => is_other (probe_outcome p)) probes)))%N
  /\ exists unused, answers = map probe_outcome probes ++ unused.
Proof.
  induction answers as [|o answers IH]; intros slot probes peer;
    destruct (Nat.lt_ge_cases slot 10) as [Hlt|Hge];
    try (rewrite init_loop_done by assumption; discriminate).
  - rewrite init_loop_nil by assumption. discriminate.
  - destruct o.
    + rewrite init_loop_open by assumption. intros [= <- <-]. cbn.
      rewrite Nat.add_0_r. repeat split. now exists answers.
    + rewrite init_loop_taken by assumption. intros [= <- Hst].
      destruct (IH (S slot) (fst (init_loop devicePubkey answers (S slot))) peer)
        as (-> & Hwait & unused & Hused).
      { rewrite <- Hst. now destruct (init_loop devicePubkey answers (S slot)). }
      unfold taken_slots in *. cbn [flat_map map List.filter probe_outcome is_other
        is_unavailable length probe_slot].
      rewrite total_backoff_app, total_backoff_probe, Hwait. cbn [probe_delay].
      repeat split.
      * now rewrite Nat.add_succ_r.
      * exists unused. now rewrite Hused at 1.
    + rewrite init_loop_retry by assumption. intros [= <- Hst].
      destruct (IH slot (fst (init_loop devicePubkey answers slot)) peer)
        as (-> & Hwait & unused & Hused).
      { rewrite <- Hst. now destruct (init_loop devicePubkey answers slot). }
      unfold taken_slots in *. cbn [flat_map map List.filter probe_outcome is_other
        is_unavailable length probe_slot].
      rewrite total_backoff_app, total_backoff_probe, Hwait. cbn [probe_delay].
      repeat split.
      * lia.
      * exists unused. now rewrite Hused at 1.
Qed.

(** X13.  When [init] binds, the slot it binds is the number of slots the
    transport reported taken before, the time it spent in backoff is 5000 ms
    for each other error it met, and it looked at the answers of the
    transport only up to the first ['open']. *)
Theorem bound_slot_counts_taken_slots (devicePubkey : string)
    (answers : list BindOutcome) (probes : list Probe) (peer : Peer) :
  init_loop devicePubkey answers 0 = (probes, Bound peer) ->
  peer_id peer = pygmy_id devicePubkey (length (taken_slots probes))
  /\ length (taken_slots probes) < 10
  /\ total_backoff (flat_map (probe_effects devicePubkey) probes)
     = (5000 * N.of_nat (length (List.filter (fun p => is_other (probe_outcome p)) probes)))%N
  /\ exists unused, answers = map probe_outcome probes ++ unused.
Proof.
  intros Hloop.
  destruct (init_loop_bound_count _ _ _ _ _ Hloop) as (-> & Hwait & Hused).
  destruct (init_loop_bound _ _ _ _ _ Hloop) as (s & Hs & Hpeer).
  repeat split; try assumption.
  unfold newPeer in Hpeer. injection Hpeer as Hid.
  unfold pygmy_id in Hid. apply append_inj_r, append_inj_r, append_inj_r in Hid.
  apply decimal_inj in Hid. cbn in Hid. lia.
Qed.

(** X14.  [init] does not look at the stored peer: an [init] that binds
    while a peer is stored puts the new peer in its place, and the old peer
    is not destroyed (no [init] ever calls [peer.destroy]). *)
Theorem init_replaces_stored_peer (env : Env) (st st1 : State) (key devicePubkey : string)
    (probes : list Probe) (peer old : Peer) :
  myPeerAtom st = Some old ->
  get_myDevicePubkeyAtom st key (generated env) = (Ok devicePubkey, st1) ->
  init_loop devicePubkey (binds env) 0 = (probes, Bound peer) ->
  exists st' effects,
    init_case env st key = Returned st' effects
    /\ myPeerAtom st' = Some (install key peer)
    /\ (forall id, ~ In (PeerDestroy id) effects)
    /\ (forall id ev, In (PeerOff id ev) effects -> id = peer_id peer)
    /\ (forall id ev l, In (PeerOn id ev l) effects -> id = peer_id peer).
Proof.
  intros _ Hkey Hloop. unfold init_case. rewrite Hkey, Hloop.
  eexists _, _. split; [reflexivity|]. split; [reflexivity|].
  repeat split.
  - intros id Hin. apply in_app_or in Hin as [Hin|Hin].
    + apply probe_effects_shape in Hin as [[i Hi]|[ms Hms]]; discriminate.
    + cbn in Hin. repeat (destruct Hin as [Hin|Hin]; [discriminate|]). contradiction.
  - intros id ev Hin. apply in_app_or in Hin as [Hin|Hin].
    + apply probe_effects_shape in Hin as [[i Hi]|[ms Hms]]; discriminate.
    + cbn in Hin.
      repeat (destruct Hin as [Hin|Hin]; [first [now injection Hin|discriminate]|]).
      contradiction.
  - intros id ev l Hin. apply in_app_or in Hin as [Hin|Hin].
    + apply probe_effects_shape in Hin as [[i Hi]|[ms Hms]]; discriminate.
    + cbn in Hin.
      repeat (destruct Hin as [Hin|Hin]; [first [now injection Hin|discriminate]|]).
      contradiction.
Qed.

(** The state an outcome carries, when it carries one. *)
Lemma init_case_state env st key st' effects :
  init_case env st key = Returned st' effects \/ init_case env st key = Pending st' effects ->
  isNetworkOnlineAtom st' = isNetworkOnlineAtom st
  /\ userWalletAtom st' = userWalletAtom st
  /\ forall k, k <> storeId key -> localStorage st' !! k = localStorage st !! k.
Proof.
  intros Hinit.
  destruct (init_case_store env st key) as [Hstorage _].
  pose proof (proj1 (get_myDevicePubkeyAtom_storage st key (generated env))) as Hframe.
  cbv zeta in Hframe. rewrite <- Hstorage in Hframe.
  unfold init_case in Hinit, Hframe.
  destruct (get_myDevicePubkeyAtom st key (generated env)) as [[devicePubkey|] st1]
    eqn:Hget; [|destruct Hinit; discriminate].
  destruct (get_myDevicePubkeyAtom_atoms _ _ _ _ _ Hget) as (_ & Hnet & Hwallet & _).
  destruct (init_loop devicePubkey (binds env) 0) as [probes [peer| |slot]];
    destruct Hinit as [Hinit|Hinit]; try discriminate;
    injection Hinit as <- _; cbn [state_of] in Hframe; auto.
Qed.

(** X15.  No action of [p2pAtom] writes the network atom or the wallet atom.
    The storage is written by [init] only, and only at the entry of the
    device key of its identity.  [connect] and [add_connection] change no
    atom at all, and [add_connection] does nothing to the outside either. *)
Theorem p2pAtom_frame (env : Env) (st st' : State) (action : P2pAtomAction)
    (effects : list Effect) :
  p2pAtom env st action = Returned st' effects
  \/ p2pAtom env st action = Pending st' effects ->
  isNetworkOnlineAtom st' = isNetworkOnlineAtom st
  /\ userWalletAtom st' = userWalletAtom st
  /\ match action with
     | init key =>
         forall k, k <> storeId key -> localStorage st' !! k = localStorage st !! k
     | destroy => localStorage st' = localStorage st
     | connect _ => st' = st
     | add_connection _ => st' = st /\ effects = []
     end.
Proof.
  destruct action as [key| |key|conn]; cbn [p2pAtom]; intros Hout.
  - destruct (init_case_state _ _ _ _ _ Hout) as (Hnet & Hwallet & Hframe).
    repeat split; assumption.
  - unfold destroy_case in Hout. destruct (myPeerAtom st) as [peer|];
      destruct Hout as [Hout|Hout]; try discriminate; injection Hout as <- _;
      now repeat split.
  - assert (Hst : st' = st).
    { unfold connect_case in Hout.
      destruct (myPeerAtom st); [destruct (userWalletAtom st)|];
        try (destruct (connect_loop _ _ _ _ _ _) as [[attempts [c|]]|]);
        destruct Hout as [Hout|Hout]; try discriminate; injection Hout as <- _;
        reflexivity. }
    subst st'. now repeat split.
  - destruct Hout as [Hout|Hout]; try discriminate. injection Hout as <- <-.
    now repeat split.
Qed.

(** X19.  What the online state reads after a teardown.  After a [destroy]
    the state is never ['online']: it is ['offline'] when the network is
    down and ['loading'] when the network is up, since a null peer with the
    network up reads as ['loading'].  An ['error'] event on a peer stored by
    [init] is no teardown: the peer stays stored and the state reads
    ['online'] as long as the network is up, also when the transport has
    destroyed the peer. *)
Theorem online_state_after_destroy (env : Env) (st st' : State) (effects : list Effect)
    (fatal : bool) :
  (p2pAtom env st destroy = Returned st' effects ->
   myOnlineStateAtom st' = if isNetworkOnlineAtom st then loading else offline)
  /\ (forall key id,
        myPeerAtom st = Some (install key (newPeer id)) ->
        myOnlineStateAtom (fst (on_error fatal st))
        = (if isNetworkOnlineAtom st then online else offline)
        /\ exists peer, myPeerAtom (fst (on_error fatal st)) = Some peer
                        /\ peer_id peer = id /\ destroyed peer = fatal).
Proof.
  split.
  - cbn [p2pAtom]. unfold destroy_case, myOnlineStateAtom.
    destruct (myPeerAtom st) as [peer|] eqn:Hpeer; intros [= <- _]; cbn;
      rewrite ?Hpeer; now destruct (isNetworkOnlineAtom st).
  - intros key id Hpeer. rewrite (on_error_installed fatal st key id Hpeer).
    unfold myOnlineStateAtom. cbn. split; [now destruct (isNetworkOnlineAtom st)|].
    eexists. split; [reflexivity|]. now split.
Qed.

End InitMore.

(** ** Connections that come in, and both sides of an exchange *)

Section Inbound.
Context `{ext : Externals}.

(** On the peer [init] stores, a connection that comes in is taken up by
    the one listener of lines 152-167. *)
Lemma on_connection_installed (st : State) (nonce key id : string)
    (c : DataConnection) (evs : list ConnEvent) :
  myPeerAtom st = Some (install key (newPeer id)) ->
  on_connection st nonce c evs = flat_map (inbound_event (localStorage st) nonce key c) evs.
Proof.
  intros Hpeer. unfold on_connection. rewrite Hpeer, install_newPeer. cbn.
  apply app_nil_r.
Qed.

(** A verdict is all the handler does on the event that brings it. *)
Lemma on_data_verdict storage nonce myPubkey target data result :
  In (OnVerify result) (on_data storage nonce myPubkey target data) ->
  on_data storage nonce myPubkey target data = [OnVerify result]
  /\ exists k, target = Some k.
Proof.
  intros Hin.
  destruct (on_data_handled storage nonce myPubkey target data)
    as [|?|? ? ?|m signature k pubkey r ? ? ? ? ?]; cbn in Hin;
    try (destruct Hin as [Hin|[]]; try discriminate Hin); try contradiction.
  injection Hin as ->. eauto.
Qed.

(** X16.  The listener of a connection that came in keeps no memory: each
    ['verification'] message that is accepted hands the connection to the
    application, also one that follows an earlier hand-over or an earlier
    close, so a remote side that repeats its message is handed over
    again. *)
Theorem every_accepted_message_hands_over (st : State) (nonce key id : string)
    (c : DataConnection) (before after : list ConnEvent) (data : JsData) :
  myPeerAtom st = Some (install key (newPeer id)) ->
  In (OnVerify true) (on_data (localStorage st) nonce key (claimed_key c) data) ->
  on_connection st nonce c (before ++ ConnData data :: after) =
  on_connection st nonce c before ++ AddConnection c :: on_connection st nonce c after.
Proof.
  intros Hpeer Hin. rewrite !(on_connection_installed st nonce key id) by assumption.
  rewrite flat_map_app. cbn [flat_map inbound_event].
  apply on_data_verdict in Hin as [-> _]. reflexivity.
Qed.

(** X17.  A connection whose remote identifier has no underscore claims no
    key ([split('_')[1]] is undefined): nothing that arrives on it can hand
    it over, and every ['verification'] message with a message in it closes
    it. *)
Theorem connection_without_claimed_key (storage : gmap string string) (nonce key : string)
    (c : DataConnection) :
  free_of "_" (conn_peer c) = true ->
  claimed_key c = None
  /\ (forall ev c', ~ In (AddConnection c') (inbound_event storage nonce key c ev))
  /\ (forall m, truthy m = true ->
        inbound_event storage nonce key c
          (ConnData (JObject (Some "verification"%string) m)) = [ConnClose c]).
Proof.
  intros Hfree.
  assert (Hnone : claimed_key c = None).
  { unfold claimed_key. now rewrite js_split_free. }
  repeat apply conj; [exact Hnone| |].
  - intros ev c' Hin. apply inbound_event_add in Hin as (_ & data & _ & Hv).
    apply on_data_verdict in Hv as (_ & k & Hk). rewrite Hnone in Hk. discriminate.
  - intros m Hm. cbn [inbound_event]. rewrite Hnone.
    unfold on_data, try_data, on_verification. cbn [String.eqb Ascii.eqb Bool.eqb].
    rewrite Hm. cbn [negb].
    now destruct (bs58_decode _) as [signature|]; cbn [mbind Result_bind].
Qed.

(** The two halves of an exchange, on the handler. *)
Lemma reply_to_challenge storage nonce myPubkey target stored devicePubkey received
    secretKey pubkey sig :
  storage !! storeId myPubkey = Some stored ->
  truthy (Some stored) = true ->
  ExchangeOk stored devicePubkey received secretKey pubkey sig ->
  on_data storage nonce myPubkey target (JObject (Some "challenge"%string) (Some received))
  = [Send {| msg_type := verification; message := bs58_encode sig |}].
Proof.
  intros Hstored Htruthy [Hdec Hacc Hsig _ _ _ _].
  unfold on_data, try_data, on_challenge. cbn [String.eqb Ascii.eqb Bool.eqb].
  rewrite Hstored, Htruthy. cbn [negb default]; unfold id.
  rewrite Hdec. cbn [mbind Result_bind].
  rewrite Hacc. cbn [mbind Result_bind].
  now rewrite Hsig.
Qed.

Lemma reply_accepted storage nonce myPubkey stored devicePubkey secretKey pubkey sig :
  ExchangeOk stored devicePubkey nonce secretKey pubkey sig ->
  on_data storage nonce myPubkey (Some devicePubkey)
    (JObject (Some "verification"%string) (Some (bs58_encode sig)))
  = [OnVerify true].
Proof.
  intros [_ _ _ Hcode Hne Hpk Hver].
  unfold on_data, try_data, on_verification. cbn [String.eqb Ascii.eqb Bool.eqb].
  rewrite Hne. cbn [negb default]; unfold id.
  rewrite Hcode. cbn [mbind Result_bind].
  rewrite Hpk. cbn [mbind Result_bind].
  now rewrite Hver.
Qed.

(** The promise of an attempt, one event at a time. *)
Lemma await_attempt_open storage nonce myPubkey key c elapsed delay evs :
  (elapsed + delay < 5000)%N ->
  await_attempt storage nonce myPubkey key c elapsed ((delay, ConnOpen) :: evs) =
  let rest := await_attempt storage nonce myPubkey key c (elapsed + delay) evs in
  (ConnSend c {| msg_type := challenge; message := nonce |} :: fst (fst rest),
   snd (fst rest), snd rest).
Proof.
  intros Hlt. cbn [await_attempt].
  destruct (N.leb_spec 5000 (elapsed + delay)) as [Hle|_]; [lia|].
  now destruct (await_attempt _ _ _ _ _ _ evs) as [[effects conn] settled].
Qed.

Lemma await_attempt_reply storage nonce myPubkey key c elapsed delay data m evs :
  (elapsed + delay < 5000)%N ->
  on_data storage nonce myPubkey (Some key) data = [Send m] ->
  await_attempt storage nonce myPubkey key c elapsed ((delay, ConnData data) :: evs) =
  let rest := await_attempt storage nonce myPubkey key c (elapsed + delay) evs in
  (ConnSend c m :: fst (fst rest), snd (fst rest), snd rest).
Proof.
  intros Hlt Hdata. cbn [await_attempt].
  destruct (N.leb_spec 5000 (elapsed + delay)) as [Hle|_]; [lia|].
  rewrite Hdata. cbn [connect_actions].
  now destruct (await_attempt _ _ _ _ _ _ evs) as [[effects conn] settled].
Qed.

Lemma await_attempt_accept storage nonce myPubkey key c elapsed delay data evs :
  (elapsed + delay < 5000)%N ->
  on_data storage nonce myPubkey (Some key) data = [OnVerify true] ->
  await_attempt storage nonce myPubkey key c elapsed ((delay, ConnData data) :: evs) =
  ([], Some c, (elapsed + delay)%N).
Proof.
  intros Hlt Hdata. cbn [await_attempt].
  destruct (N.leb_spec 5000 (elapsed + delay)) as [Hle|_]; [lia|].
  now rewrite Hdata.
Qed.

(** The events left when the promise settles, one event at a time. *)
Lemma after_settled_open storage nonce myPubkey key c elapsed delay evs :
  (elapsed + delay < 5000)%N ->
  after_settled storage nonce myPubkey key c elapsed ((delay, ConnOpen) :: evs) =
  after_settled storage nonce myPubkey key c (elapsed + delay) evs.
Proof.
  intros Hlt. cbn [after_settled].
  now destruct (N.leb_spec 5000 (elapsed + delay)) as [Hle|_]; [lia|].
Qed.

Lemma after_settled_reply storage nonce myPubkey key c elapsed delay data m evs :
  (elapsed + delay < 5000)%N ->
  on_data storage nonce myPubkey (Some key) data = [Send m] ->
  after_settled storage nonce myPubkey key c elapsed ((delay, ConnData data) :: evs) =
  after_settled storage nonce myPubkey key c (elapsed + delay) evs.
Proof.
  intros Hlt Hdata. cbn [after_settled].
  destruct (N.leb_spec 5000 (elapsed + delay)) as [Hle|_]; [lia|].
  now rewrite Hdata.
Qed.

Lemma after_settled_accept storage nonce myPubkey key c elapsed delay data evs :
  (elapsed + delay < 5000)%N ->
  on_data storage nonce myPubkey (Some key) data = [OnVerify true] ->
  after_settled storage nonce myPubkey key c elapsed ((delay, ConnData data) :: evs) = evs.
Proof.
  intros Hlt Hdata. cbn [after_settled].
  destruct (N.leb_spec 5000 (elapsed + delay)) as [Hle|_]; [lia|].
  now rewrite Hdata.
Qed.

(** X18.  Both sides of one exchange.  The device A, with a wallet key and a
    stored peer, connects to the device B, which listens on [slot] (the
    slots below gave nothing); each side has its device key stored, and the
    libraries make and accept the two signatures.  Then what each side
    receives is what the other sends: A sends its challenge and its reply to
    the challenge of B, and hands over the connection to B; B sends its
    challenge and its reply to the challenge of A, and hands over the
    connection that came from A, whose claimed key is the device key of
    A. *)
Theorem mutual_handshake (env : Env) (stA stB : State) (walletA keyB idB : string)
    (peerA : Peer) (storedA storedB devA devB nonceB : string)
    (skA pkA sigA skB pkB sigB : Bytes) (slot slotA : nat) (t1 t2 t3 : N) :
  let nonceA := getRandom env slot in
  let toB := {| conn_peer := pygmy_id devB slot |} in
  let fromA := {| conn_peer := pygmy_id devA slotA |} in
  let sentByA := [{| msg_type := challenge; message := nonceA |};
                  {| msg_type := verification; message := bs58_encode sigA |}] in
  let sentByB := [{| msg_type := challenge; message := nonceB |};
                  {| msg_type := verification; message := bs58_encode sigB |}] in
  myPeerAtom stA = Some peerA ->
  userWalletAtom stA = Some walletA ->
  localStorage stA !! storeId walletA = Some storedA ->
  truthy (Some storedA) = true ->
  myPeerAtom stB = Some (install keyB (newPeer idB)) ->
  localStorage stB !! storeId keyB = Some storedB ->
  truthy (Some storedB) = true ->
  free_of "_" devA = true ->
  ExchangeOk storedA devA nonceB skA pkA sigA ->
  ExchangeOk storedB devB nonceA skB pkB sigB ->
  slot < 10 ->
  (forall s, s < slot ->
     attempt_conn (attempt env (localStorage stA) walletA devB s) = None) ->
  events env slot = combine [t1; t2; t3] (ConnOpen :: map wire sentByB) ->
  (t1 + t2 + t3 < 5000)%N ->
  attempt_effects (attempt env (localStorage stA) walletA devB slot)
    = PeerConnect (pygmy_id devB slot) :: map (ConnSend toB) sentByA
        ++ [Settled (t1 + t2 + t3)]
  /\ handed (effects_of (connect_case env stA devB)) = [toB]
  /\ on_connection stB nonceB fromA (ConnOpen :: map wire sentByA)
     = map (ConnSend fromA) sentByB ++ [AddConnection fromA].
Proof.
  intros nonceA toB fromA sentByA sentByB HpeerA HwalletA HstoredA HtruthyA
    HpeerB HstoredB HtruthyB Hfree HokA HokB Hslot Hbefore Hevents Htime.
  assert (Hattempt :
    attempt env (localStorage stA) walletA devB slot =
    {| attempt_slot := slot;
       attempt_effects := PeerConnect (pygmy_id devB slot) :: map (ConnSend toB) sentByA
                            ++ [Settled (t1 + t2 + t3)];
       attempt_settled := (t1 + t2 + t3)%N;
       attempt_conn := Some toB |}).
  { unfold attempt. rewrite Hevents. subst sentByA sentByB.
    cbn [combine map]. unfold wire. cbn [type_tag msg_type message].
    fold nonceA. fold toB.
    rewrite await_attempt_open by lia.
    rewrite (await_attempt_reply _ _ _ _ _ _ _ _
               {| msg_type := verification; message := bs58_encode sigA |});
      [|lia|now apply (reply_to_challenge _ _ _ _ storedA devA nonceB skA pkA sigA)].
    rewrite await_attempt_accept;
      [|lia|now apply (reply_accepted _ _ _ storedB devB skB pkB sigB)].
    rewrite after_settled_open by lia.
    rewrite (after_settled_reply _ _ _ _ _ _ _ _
               {| msg_type := verification; message := bs58_encode sigA |});
      [|lia|now apply (reply_to_challenge _ _ _ _ storedA devA nonceB skA pkA sigA)].
    rewrite after_settled_accept;
      [|lia|now apply (reply_accepted _ _ _ storedB devB skB pkB sigB)].
    cbn [fst snd app map late_events]. rewrite !N.add_0_l. reflexivity. }
  repeat apply conj.
  - now rewrite Hattempt.
  - unfold connect_case. rewrite HpeerA, HwalletA.
    rewrite (connect_loop_first env (localStorage stA) walletA devB 10 slot toB 0);
      [|lia|lia|intros; apply Hbefore; lia|now rewrite Hattempt].
    cbn [effects_of]. rewrite handed_app.
    destruct (attempts_summary env (localStorage stA) walletA devB (seq 0 (S slot - 0)))
      as (_ & -> & _).
    reflexivity.
  - rewrite (on_connection_installed stB nonceB keyB idB) by assumption.
    subst sentByA sentByB.
    cbn [map]. unfold wire. cbn [flat_map type_tag msg_type message inbound_event on_open].
    assert (Hclaimed : claimed_key fromA = Some devA).
    { unfold claimed_key, fromA. cbn [conn_peer]. rewrite js_split_pygmy_id.
      now rewrite (js_split_free _ _ Hfree). }
    rewrite Hclaimed.
    rewrite (reply_to_challenge _ nonceB keyB (Some devA) storedB devB nonceA
               skB pkB sigB HstoredB HtruthyB HokB).
    rewrite (reply_accepted (localStorage stB) nonceB keyB storedA devA skA pkA sigA HokA).
    reflexivity.
Qed.

End Inbound.

(** ** More runs on concrete inputs *)

Section MoreRuns.
Import Demo.
#[local] Existing Instance Demo.externals.

(** The identifier [bob] listens under claims the device key [2kd]. *)
Lemma claimed_key_of_pygmy_id_witness :
  claimed_key {| conn_peer := pygmy_id "2kd" 1 |} = Some "2kd"%string.
Proof. apply (proj2 (claimed_key_of_pygmy_id "2kd" 1)). reflexivity. Defined.

(** Two slots of one device, and one slot of two devices. *)
Lemma pygmy_id_injective_witness :
  pygmy_id "2kd" 1 <> pygmy_id "2kd" 2 /\ pygmy_id "2kd" 1 <> pygmy_id "1ks" 1.
Proof.
  split.
  - apply (pygmy_id_injective "2kd" "2kd" 1 2); [reflexivity|reflexivity|right; lia].
  - apply (pygmy_id_injective "2kd" "1ks" 1 1); [reflexivity|reflexivity|left; discriminate].
Defined.

Lemma alice_fresh_read :
  myDevicePubkeyAtom (localStorage alice_fresh) "alice" (list_byte_of_string "sk9")
  = Ok ("9ks"%string, {[ storeId "alice" := "sk9"%string ]}).
Proof. vm_compute. reflexivity. Qed.

(** [alice] listens; her peer gets an ['error'], her storage is cleared,
    she runs [destroy] and then [init] again with slot 0 free: the store
    answers with the device key it holds, no key is stored, and the peer
    she creates is a peer of that key. *)
Lemma device_key_is_read_once_witness :
  let st' := fold_left step
               [ErrorEvent true; Storage ∅; Act (env_of [] silent) destroy] alice_online in
  deviceKeyCache st' !! "alice" = Some (Ok "1ks"%string)
  /\ localStorage (state_of (p2pAtom (env_of [BindOpen] silent) st' (init "alice"))) = ∅
  /\ In (NewPeer "pygmy_1ks_0")
        (effects_of (p2pAtom (env_of [BindOpen] silent) st' (init "alice"))).
Proof.
  intros st'.
  assert (Hkept : deviceKeyCache alice_online !! "alice" = Some (Ok "1ks"%string))
    by (vm_compute; reflexivity).
  destruct (device_key_is_read_once
              [ErrorEvent true; Storage ∅; Act (env_of [] silent) destroy]
              alice_online "alice" (Ok "1ks"%string) Hkept) as [Hstill Hinit].
  destruct (Hinit (env_of [BindOpen] silent)) as (Hstorage & _ & _ & _).
  split; [exact Hstill|]. split.
  - fold st' in Hstorage. rewrite Hstorage. vm_compute. reflexivity.
  - in_list.
Defined.

(** The second read gives the key of the first, though it would have
    generated another. *)
Lemma device_key_is_stable_witness :
  myDevicePubkeyAtom {[ storeId "alice" := "sk9"%string ]} "alice" (list_byte_of_string "sk7")
  = Ok ("9ks"%string, {[ storeId "alice" := "sk9"%string ]}).
Proof.
  apply (device_key_is_stable (localStorage alice_fresh) "alice"
           (list_byte_of_string "sk9") (list_byte_of_string "sk7"));
    [reflexivity|reflexivity|reflexivity|reflexivity|exact alice_fresh_read].
Defined.

(** After her first [init], with nothing stored before, [alice] answers a
    challenge.  When she listens, her storage is cleared and she runs [init]
    again, she binds slot 0 and drops the challenge. *)
Lemma only_first_init_provides_device_key_witness :
  (exists st' effects,
     init_case (env_of [BindOpen] silent) alice_fresh "alice" = Returned st' effects
     /\ on_data (localStorage st') "n1" "alice" None
          (JObject (Some "challenge"%string) (Some "q7"%string)) <> [])
  /\ (exists st' effects,
        init_case (env_of [BindOpen] silent) (set_localStorage ∅ alice_online) "alice"
        = Returned st' effects
        /\ myPeerAtom st' = Some (install "alice" (newPeer "pygmy_1ks_0"))
        /\ on_data (localStorage st') "n1" "alice" None
             (JObject (Some "challenge"%string) (Some "q7"%string)) = []).
Proof.
  assert (Htruthy : truthy (Some (bs58_encode (generated (env_of [BindOpen] silent)))) = true)
    by reflexivity.
  split.
  - destruct (init_case (env_of [BindOpen] silent) alice_fresh "alice")
      as [st' effects|st'|st' effects] eqn:Hinit; try (vm_compute in Hinit; discriminate).
    exists st', effects. split; [reflexivity|].
    apply (proj1 (only_first_init_provides_device_key (env_of [BindOpen] silent)
                    alice_fresh st' "alice" effects Htruthy (or_introl Hinit)));
      reflexivity.
  - destruct (init_case (env_of [BindOpen] silent) (set_localStorage ∅ alice_online) "alice")
      as [st' effects|st'|st' effects] eqn:Hinit; try (vm_compute in Hinit; discriminate).
    exists st', effects. split; [reflexivity|]. split.
    + vm_compute in Hinit. injection Hinit as <- _. reflexivity.
    + apply (proj2 (only_first_init_provides_device_key (env_of [BindOpen] silent)
                      (set_localStorage ∅ alice_online) st' "alice" effects Htruthy
                      (or_introl Hinit))).
      * exists (Ok "1ks"%string). vm_compute. reflexivity.
      * reflexivity.
Defined.

(** A stored key that is not base58 makes [init] raise, and [init] raises
    again when a good key has been put in its place. *)
Lemma p2pAtom_raises_only_on_refused_key_witness :
  exists st',
    p2pAtom (env_of [BindOpen] silent) alice_corrupt (init "alice") = Thrown st'
    /\ p2pAtom (env_of [BindOpen] silent)
         (set_localStorage {[ storeId "alice" := "sk1"%string ]} st') (init "alice")
       = Thrown (set_localStorage {[ storeId "alice" := "sk1"%string ]} st').
Proof.
  destruct (proj2 (proj1 (p2pAtom_raises_only_on_refused_key (env_of [BindOpen] silent)
                            alice_corrupt (init "alice")))) as [st' Hthrown].
  { exists "alice"%string. split; [reflexivity|]. right. split; [reflexivity|].
    exists "0O0"%string. split; [reflexivity|]. split; [reflexivity|now left]. }
  exists st'. split; [exact Hthrown|].
  exact (proj2 (p2pAtom_raises_only_on_refused_key (env_of [BindOpen] silent)
                  alice_corrupt (init "alice"))
           st' (env_of [BindOpen] silent) {[ storeId "alice" := "sk1"%string ]} Hthrown).
Defined.


(** An other error, slot 0 taken, an other error, and slot 1 is bound after
    10000 ms of backoff; the fifth answer is not looked at. *)
Lemma bound_slot_counts_taken_slots_witness :
  let answers := [BindOtherError; BindUnavailableId; BindOtherError; BindOpen;
                  BindOtherError] in
  peer_id (newPeer "pygmy_1ks_1") = pygmy_id "1ks" 1
  /\ total_backoff (flat_map (probe_effects "1ks") (fst (init_loop "1ks" answers 0)))
     = 10000%N.
Proof.
  intros answers.
  destruct (bound_slot_counts_taken_slots "1ks" answers (fst (init_loop "1ks" answers 0))
              (newPeer "pygmy_1ks_1") eq_refl) as (Hid & _ & Hwait & _).
  split; [exact Hid|exact Hwait].
Defined.

Lemma alice_online_read :
  get_myDevicePubkeyAtom alice_online "alice" (generated (env_of [BindOpen] silent))
  = (Ok "1ks"%string, alice_online).
Proof. vm_compute. reflexivity. Qed.

(** [alice] listens on slot 2 and runs [init] again with slot 0 free: the
    peer of slot 0 takes the place of the peer of slot 2, which is not
    destroyed. *)
Lemma init_replaces_stored_peer_witness :
  exists st' effects,
    init_case (env_of [BindOpen] silent) alice_online "alice" = Returned st' effects
    /\ myPeerAtom st' = Some (install "alice" (newPeer "pygmy_1ks_0"))
    /\ ~ In (PeerDestroy "pygmy_1ks_2") effects.
Proof.
  destruct (init_replaces_stored_peer (env_of [BindOpen] silent) alice_online alice_online
              "alice" "1ks"
              (fst (init_loop "1ks" [BindOpen] 0)) (newPeer "pygmy_1ks_0")
              (install "alice" (newPeer "pygmy_1ks_2")) eq_refl alice_online_read eq_refl)
    as (st' & effects & Hret & Hpeer & Hnodestroy & _).
  exists st', effects. auto.
Defined.

(** [destroy] on [alice] listening leaves her wallet and storage alone. *)
Lemma p2pAtom_frame_witness :
  exists st' effects,
    p2pAtom (env_of [] silent) alice_online destroy = Returned st' effects
    /\ userWalletAtom st' = Some "alice"%string
    /\ localStorage st' = localStorage alice_online.
Proof.
  destruct (p2pAtom (env_of [] silent) alice_online destroy)
    as [st' effects|st'|st' effects] eqn:Hout; try (vm_compute in Hout; discriminate).
  exists st', effects. split; [reflexivity|].
  destruct (p2pAtom_frame (env_of [] silent) alice_online st' destroy effects
              (or_introl Hout)) as (_ & Hwallet & Hstorage).
  split; [now rewrite Hwallet|exact Hstorage].
Defined.

(** [dk2] sends its signature twice: [alice] hands the connection over
    twice. *)
Lemma every_accepted_message_hands_over_witness :
  handed (on_connection alice_online "n1" from_bob
            (bob_follows ++ [ConnData (JObject (Some "verification"%string)
                                         (Some "dk2n1"%string))]))
  = [from_bob; from_bob].
Proof.
  rewrite (every_accepted_message_hands_over alice_online "n1" "alice" "pygmy_1ks_2"
             from_bob bob_follows []); [vm_compute; reflexivity|reflexivity|in_list].
Defined.

(** A connection from [mallory], an identifier with no underscore. *)
Lemma connection_without_claimed_key_witness :
  inbound_event (localStorage alice_online) "n1" "alice" {| conn_peer := "mallory" |}
    (ConnData (JObject (Some "verification"%string) (Some "dk2n1"%string)))
  = [ConnClose {| conn_peer := "mallory" |}].
Proof.
  apply (connection_without_claimed_key (localStorage alice_online) "n1" "alice"
           {| conn_peer := "mallory" |}); reflexivity.
Defined.

(** [alice] (device key [sk1], listening as [pygmy_1ks_2]) connects to [bob]
    (device key [dk2], listening as [pygmy_2kd_1]); her nonce is [n1], his
    is [q7]. *)
Lemma mutual_handshake_witness :
  handed (effects_of (connect_case (env_of [] bob_on_slot_1) alice_online "2kd"))
    = [{| conn_peer := "pygmy_2kd_1" |}]
  /\ on_connection bob_online "q7" {| conn_peer := "pygmy_1ks_2" |}
       [ConnOpen;
        ConnData (JObject (Some "challenge"%string) (Some "n1"%string));
        ConnData (JObject (Some "verification"%string) (Some "sk1q7"%string))]
     = [ConnSend {| conn_peer := "pygmy_1ks_2" |} {| msg_type := challenge; message := "q7" |};
        ConnSend {| conn_peer := "pygmy_1ks_2" |}
                 {| msg_type := verification; message := "dk2n1" |};
        AddConnection {| conn_peer := "pygmy_1ks_2" |}].
Proof.
  destruct (mutual_handshake (env_of [] bob_on_slot_1) alice_online bob_online
              "alice" "bob" "pygmy_2kd_1" (install "alice" (newPeer "pygmy_1ks_2"))
              "sk1" "dk2" "1ks" "2kd" "q7"
              (list_byte_of_string "sk1") (list_byte_of_string "1ks")
              (list_byte_of_string "sk1q7")
              (list_byte_of_string "dk2") (list_byte_of_string "2kd")
              (list_byte_of_string "dk2n1")
              1 2 120 40 35)
    as (_ & Hhanded & Hbob); try reflexivity.
  - constructor; reflexivity.
  - constructor; reflexivity.
  - lia.
  - intros s Hs. assert (s = 0) as -> by lia. vm_compute. reflexivity.
  - split; [exact Hhanded|exact Hbob].
Defined.

(** [alice] listening, with the network up, shows ['loading'] after a
    [destroy], and ['online'] after an ['error'] on her peer that the
    transport destroyed. *)
Lemma online_state_after_destroy_witness :
  myOnlineStateAtom alice_online = online
  /\ (exists st' effects,
        p2pAtom (env_of [] silent) alice_online destroy = Returned st' effects
        /\ myOnlineStateAtom st' = loading)
  /\ myOnlineStateAtom (fst (on_error true alice_online)) = online.
Proof.
  split; [reflexivity|]. split.
  - destruct (p2pAtom (env_of [] silent) alice_online destroy)
      as [st' effects|st'|st' effects] eqn:Hout; try (vm_compute in Hout; discriminate).
    exists st', effects. split; [reflexivity|].
    now rewrite (proj1 (online_state_after_destroy (env_of [] silent) alice_online st'
                          effects false) Hout).
  - exact (proj1 (proj2 (online_state_after_destroy (env_of [] silent) alice_online
                           alice_online [] true)
                    "alice"%string "pygmy_1ks_2"%string eq_refl)).
Defined.

End MoreRuns.
